(** * Verification of the text-processing core of yt-summarizer

    Shallow embedding of
    - [yt_summarizer/utils/token_counter.py] ([TokenCounter.split_text_into_chunks]),
    - [yt_summarizer/utils/helpers.py] ([sanitize_filename]),
    - [yt_summarizer/core/transcript.py] ([TranscriptProcessor.get_subtitles]),
    - [yt_summarizer/core/summary.py] and [youtube_summarizer_openai.py]
      ([summarize_chunk], [merge_summaries] and the per-chunk loop of
      [process_video]).

    Python strings are modelled as [list ascii]; the whitespace class of
    Python ([str.isspace], used by [str.split], [str.strip] and the regex
    class [\s]) restricted to ASCII is [9..13], [28..31] and [32]. *)

From Stdlib Require Import List Ascii String Bool Arith Lia.
From Stdlib Require Import Numbers.DecimalString.
Import ListNotations.

Definition str := list ascii.

(** Literal helper: a Rocq string literal as a Python-like [str]. *)
Definition s_ (s : string) : str := list_ascii_of_string s.
Arguments s_ : simpl never.

(** ** Character classes *)

Definition is_space (c : ascii) : bool :=
  let n := nat_of_ascii c in
  ((9 <=? n) && (n <=? 13)) || ((28 <=? n) && (n <=? 31)) || (n =? 32).

(** [[.!?]] of the sentence regex. *)
Definition is_sentence_end (c : ascii) : bool :=
  Ascii.eqb c "." || Ascii.eqb c "!" || Ascii.eqb c "?".

(** Python truthiness of a string. *)
Definition nonempty (s : str) : bool :=
  match s with [] => false | _ => true end.

(** ** [str.split()] : maximal runs of non-whitespace characters. *)

Fixpoint words_aux (cur : str) (s : str) : list str :=
  match s with
  | [] => if nonempty cur then [rev cur] else []
  | c :: rest =>
      if is_space c then
        (if nonempty cur then rev cur :: words_aux [] rest else words_aux [] rest)
      else words_aux (c :: cur) rest
  end.

Definition words (s : str) : list str := words_aux [] s.

(** ** [str.strip()] *)

Fixpoint lstrip_by (p : ascii -> bool) (s : str) : str :=
  match s with
  | [] => []
  | c :: rest => if p c then lstrip_by p rest else s
  end.

Definition strip_by (p : ascii -> bool) (s : str) : str :=
  rev (lstrip_by p (rev (lstrip_by p s))).

Definition strip (s : str) : str := strip_by is_space s.

(** [" ".join(l)] *)
Fixpoint join_with (sep : ascii) (l : list str) : str :=
  match l with
  | [] => []
  | [x] => x
  | x :: l' => x ++ sep :: join_with sep l'
  end.

Definition join_space (l : list str) : str := join_with " "%char l.

(** Whitespace normalisation [" ".join(s.split())]. *)
Definition collapse_ws (s : str) : str := join_space (words s).

(** ** [re.split(r"(?<=[.!?])\s+", text)]

    [after_punct] records whether the previous character is one of [.!?]
    (the look-behind); [skipping] is set while the rest of a matched
    whitespace run is consumed; [cur] is the current piece, reversed. *)
Fixpoint split_sentences_aux (after_punct skipping : bool) (cur : str) (s : str)
  : list str :=
  match s with
  | [] => [rev cur]
  | c :: rest =>
      if skipping then
        if is_space c then split_sentences_aux false true [] rest
        else split_sentences_aux (is_sentence_end c) false [c] rest
      else if after_punct && is_space c then
        rev cur :: split_sentences_aux false true [] rest
      else split_sentences_aux (is_sentence_end c) false (c :: cur) rest
  end.

Definition split_sentences (text : str) : list str :=
  split_sentences_aux false false [] text.

(** ** [TokenCounter.split_text_into_chunks]

    The estimator [count_tokens] is [len(self.encoding.encode(text))]; the
    encoding (tiktoken in production, [MockEncoding] in the tests) is not
    code of this repository, so it is a parameter of the section. *)

Section Chunker.

Variable count_tokens : str -> nat.
Variable max_tokens_per_chunk : nat.

(** [a + " " + b if a else b] *)
Definition join_sp (a b : str) : str :=
  if nonempty a then a ++ " "%char :: b else b.

(** Inner loop over the words of a sentence that alone is over budget:
    returns the chunks so far and [temp_chunk]. *)
Fixpoint word_loop (chunks : list str) (temp_chunk : str) (ws : list str)
  : list str * str :=
  match ws with
  | [] => (chunks, temp_chunk)
  | word :: ws' =>
      let test_word_chunk := join_sp temp_chunk word in
      if max_tokens_per_chunk <? count_tokens test_word_chunk then
        if nonempty temp_chunk then
          word_loop (chunks ++ [strip temp_chunk]) word ws'
        else word_loop (chunks ++ [word]) temp_chunk ws'
      else word_loop chunks test_word_chunk ws'
  end.

(** Outer loop over the sentences: returns the chunks so far and
    [current_chunk]. *)
Fixpoint sentence_loop (chunks : list str) (current_chunk : str) (ss : list str)
  : list str * str :=
  match ss with
  | [] => (chunks, current_chunk)
  | sentence :: ss' =>
      let test_chunk := join_sp current_chunk sentence in
      if max_tokens_per_chunk <? count_tokens test_chunk then
        if nonempty current_chunk then
          sentence_loop (chunks ++ [strip current_chunk]) sentence ss'
        else
          let '(chunks', temp_chunk) := word_loop chunks [] (words sentence) in
          sentence_loop chunks'
            (if nonempty temp_chunk then temp_chunk else current_chunk) ss'
      else sentence_loop chunks test_chunk ss'
  end.

Definition split_text_into_chunks (text : str) : list str :=
  let '(chunks, current_chunk) := sentence_loop [] [] (split_sentences text) in
  if nonempty current_chunk then chunks ++ [strip current_chunk] else chunks.

End Chunker.

(** [MockEncoding] of [tests/test_token_counter.py]: one token per
    whitespace-separated word, times [token_per_char]. *)
Definition mock_count_tokens (token_per_char : nat) (text : str) : nat :=
  List.length (words text) * token_per_char.

(** ** [sanitize_filename] ([yt_summarizer/utils/helpers.py]) *)

(** The regex class of removed characters: [<], [>], [:], the double
    quote (code 34), [/], the backslash, [|], [?] and [*]. *)
Definition is_invalid_filename_char (c : ascii) : bool :=
  existsb (Ascii.eqb c)
    ["<"; ">"; ":"; "034"; "/"; "\"; "|"; "?"; "*"]%char.

Definition underscore : ascii := "_"%char.

(** [re.sub(r'_+', '_', s)]: [in_run] says the previous character was an
    underscore already emitted. *)
Fixpoint collapse_underscores_aux (in_run : bool) (s : str) : str :=
  match s with
  | [] => []
  | c :: rest =>
      if Ascii.eqb c underscore then
        if in_run then collapse_underscores_aux true rest
        else c :: collapse_underscores_aux true rest
      else c :: collapse_underscores_aux false rest
  end.

Definition collapse_underscores (s : str) : str := collapse_underscores_aux false s.

Definition sanitize_filename (filename : str) : str :=
  let sanitized := filter (fun c => negb (is_invalid_filename_char c)) filename in
  let sanitized :=
    map (fun c => if Ascii.eqb c " "%char then underscore else c) sanitized in
  let sanitized := collapse_underscores sanitized in
  strip_by (fun c => Ascii.eqb c underscore) sanitized.

(** ** Errors and results

    A Python call that may raise is modelled as a [result]; [exn] lists
    the exceptions that the modelled code raises or catches. *)

Inductive exn : Type :=
  | NoTranscriptFound (lang : str)   (* youtube_transcript_api lookup miss *)
  | FetchFailed (msg : str)          (* Transcript.fetch() failure *)
  | ListFailed (msg : str)           (* YouTubeTranscriptApi().list() failure *)
  | TranscriptError (msg : str)
  | ApiError (msg : str)             (* exception of the provider's client *)
  | ProviderError (msg : str)
  | VideoProcessingError (msg : str).

Inductive result (A : Type) : Type :=
  | Ok (a : A)
  | Err (e : exn).
Arguments Ok {A} a.
Arguments Err {A} e.

Definition bind {A B : Type} (r : result A) (k : A -> result B) : result B :=
  match r with Ok a => k a | Err e => Err e end.

Notation "x <- r ;; k" := (bind r (fun x => k))
  (at level 61, r at next level, right associativity).

(** [str(e)] *)
Definition exn_msg (e : exn) : str :=
  match e with
  | NoTranscriptFound lang => s_ "No transcripts were found for " ++ lang
  | FetchFailed m | ListFailed m | TranscriptError m | ApiError m
  | ProviderError m | VideoProcessingError m => m
  end.

Definition is_transcript_error (e : exn) : bool :=
  match e with TranscriptError _ => true | _ => false end.

Definition str_eqb (a b : str) : bool :=
  if list_eq_dec ascii_dec a b then true else false.

(** ** Transcript tracks, as listed by [youtube_transcript_api]

    A track has a language code, a manual/generated flag and the outcome of
    its [fetch()] (the caption texts, or the exception it raises). *)
Record Transcript : Type := mkTranscript {
  language_code : str;
  is_generated : bool;
  fetch : result (list str)
}.

(** [TranscriptList.find_transcript([lang])]: the library looks in the
    manually created transcripts first, then in the generated ones, and
    raises [NoTranscriptFound] when neither has [lang]. *)
Definition find_transcript (tl : list Transcript) (lang : str) : result Transcript :=
  match find (fun t => negb (is_generated t) && str_eqb (language_code t) lang) tl with
  | Some t => Ok t
  | None =>
      match find (fun t => is_generated t && str_eqb (language_code t) lang) tl with
      | Some t => Ok t
      | None => Err (NoTranscriptFound lang)
      end
  end.

(** [TranscriptList.find_generated_transcript([lang])] *)
Definition find_generated_transcript (tl : list Transcript) (lang : str)
  : result Transcript :=
  match find (fun t => is_generated t && str_eqb (language_code t) lang) tl with
  | Some t => Ok t
  | None => Err (NoTranscriptFound lang)
  end.

(** [re.sub(pattern + "+", " ", s)] for a one-character class [p]. *)
Fixpoint sub_runs_aux (p : ascii -> bool) (in_run : bool) (s : str) : str :=
  match s with
  | [] => []
  | c :: rest =>
      if p c then
        if in_run then sub_runs_aux p true rest
        else " "%char :: sub_runs_aux p true rest
      else c :: sub_runs_aux p false rest
  end.

Definition sub_runs (p : ascii -> bool) (s : str) : str := sub_runs_aux p false s.

Definition is_newline (c : ascii) : bool := Ascii.eqb c "010"%char.

(** [TranscriptProcessor._format_transcript]: [TextFormatter] joins the
    caption texts with newlines; then newline runs and whitespace runs
    become single spaces and the result is stripped. *)
Definition format_transcript (transcript_data : list str) : str :=
  let formatted_text := join_with "010"%char transcript_data in
  let formatted_text := sub_runs is_newline formatted_text in
  let formatted_text := sub_runs is_space formatted_text in
  strip formatted_text.

(** [settings.processing] *)
Record ProcessingSettings : Type := mkProcessingSettings {
  max_tokens_per_chunk : nat;
  language_priority : list str;
  prefer_manual_transcripts : bool
}.

Section Selector.

Variable settings : ProcessingSettings.

(** Body of the [try] of Priority 1 for one language: [None] when the loop
    goes on without returning. *)
Definition priority1_attempt (tl : list Transcript) (lang_code : str)
  : result (option str) :=
  transcript <- find_transcript tl lang_code ;;
  if prefer_manual_transcripts settings && negb (is_generated transcript) then
    fetched <- fetch transcript ;; Ok (Some (format_transcript fetched))
  else Ok None.

(** Priority 1 loop; an exception is swallowed ([except Exception]). *)
Fixpoint priority1 (tl : list Transcript) (langs : list str) : option str :=
  match langs with
  | [] => None
  | lang_code :: langs' =>
      match priority1_attempt tl lang_code with
      | Ok (Some s) => Some s
      | Ok None | Err _ => priority1 tl langs'
      end
  end.

Definition priority2_attempt (tl : list Transcript) (lang_code : str) : result str :=
  transcript <- find_generated_transcript tl lang_code ;;
  fetched <- fetch transcript ;; Ok (format_transcript fetched).

Fixpoint priority2 (tl : list Transcript) (langs : list str) : option str :=
  match langs with
  | [] => None
  | lang_code :: langs' =>
      match priority2_attempt tl lang_code with
      | Ok s => Some s
      | Err _ => priority2 tl langs'
      end
  end.

(** The [for transcript in transcript_list] loop of Priority 3. *)
Fixpoint priority3_scan (tl : list Transcript) : result (option str) :=
  match tl with
  | [] => Ok None
  | transcript :: tl' =>
      if is_generated transcript then
        fetched <- fetch transcript ;; Ok (Some (format_transcript fetched))
      else priority3_scan tl'
  end.

(** Priority 3: the [try] surrounds the whole loop. *)
Definition priority3 (tl : list Transcript) : option str :=
  match priority3_scan tl with
  | Ok o => o
  | Err _ => None
  end.

Definition no_subtitles_msg : str := s_ "No suitable subtitles found".

(** [TranscriptProcessor.get_subtitles]; [listing] is the outcome of
    [YouTubeTranscriptApi().list(video_id)]. *)
Definition get_subtitles (listing : result (list Transcript)) : result str :=
  let body :=
    transcript_list <- listing ;;
    match priority1 transcript_list (language_priority settings) with
    | Some s => Ok s
    | None =>
        match priority2 transcript_list (language_priority settings) with
        | Some s => Ok s
        | None =>
            match priority3 transcript_list with
            | Some s => Ok s
            | None => Err (TranscriptError no_subtitles_msg)
            end
        end
    end in
  match body with
  | Ok s => Ok s
  | Err (TranscriptError m) => Err (TranscriptError m)
  | Err e => Err (TranscriptError (s_ "Error getting subtitles: " ++ exn_msg e))
  end.

(** Specification side (spec 4.3): the tracks the three states try, in
    order. State A: for each priority language, the manual track of that
    language (only under [prefer_manual]); state B: for each priority
    language, the generated track of that language; state C: the first
    generated track of the list. *)
Definition state_attempts (tl : list Transcript) : list Transcript :=
  let opt := fun (o : option Transcript) => match o with Some t => [t] | None => [] end in
  (if prefer_manual_transcripts settings then
     flat_map (fun l => opt (find (fun t => negb (is_generated t)
                                      && str_eqb (language_code t) l) tl))
       (language_priority settings)
   else [])
  ++ flat_map (fun l => opt (find (fun t => is_generated t
                                      && str_eqb (language_code t) l) tl))
       (language_priority settings)
  ++ opt (find is_generated tl).

(** The first attempted track whose fetch succeeds, formatted. *)
Fixpoint first_fetched (ts : list Transcript) : option str :=
  match ts with
  | [] => None
  | t :: ts' =>
      match fetch t with
      | Ok entries => Some (format_transcript entries)
      | Err _ => first_fetched ts'
      end
  end.

End Selector.

(** ** Summaries ([yt_summarizer/core/summary.py], [youtube_summarizer_openai.py]) *)

Definition nl : str := ["010"%char].

(** [f"{n}"] for a natural number. *)
Definition nat_str (n : nat) : str := s_ (NilEmpty.string_of_uint (Nat.to_uint n)).

Section Summarize.

(** [self.provider_config.provider] *)
Variable provider : str.
(** Outcome of [client.chat.completions.create(...)] for the prompt built
    from (chunk, chunk_number, total_chunks): the message content, or the
    exception raised by the provider. *)
Variable chat_completion : str -> nat -> nat -> result str.

Definition error_summarizing_msg (chunk_number : nat) (e : exn) : str :=
  s_ "Error summarizing chunk " ++ nat_str chunk_number ++ s_ " with "
  ++ provider ++ s_ ": " ++ exn_msg e.

(** [SummaryGenerator.summarize_chunk]: the failure is raised as
    [ProviderError]. *)
Definition summarize_chunk (chunk : str) (chunk_number total_chunks : nat) : result str :=
  match chat_completion chunk chunk_number total_chunks with
  | Ok content => Ok (strip content)
  | Err e => Err (ProviderError (error_summarizing_msg chunk_number e))
  end.

(** [YouTubeSubtitleSummarizer.summarize_chunk] of the single-file version:
    the failure message is returned as the summary. *)
Definition summarize_chunk_legacy (chunk : str) (chunk_number total_chunks : nat) : str :=
  match chat_completion chunk chunk_number total_chunks with
  | Ok content => strip content
  | Err e => error_summarizing_msg chunk_number e
  end.

(** The loop [for i, chunk in enumerate(chunks, 1)] of [process_video] in
    the package: an exception leaves the loop. *)
Fixpoint summarize_loop (i total_chunks : nat) (chunks : list str) : result (list str) :=
  match chunks with
  | [] => Ok []
  | chunk :: chunks' =>
      summary <- summarize_chunk chunk i total_chunks ;;
      summaries <- summarize_loop (S i) total_chunks chunks' ;;
      Ok (summary :: summaries)
  end.

(** The summaries of [process_video] with its [except] clause, which wraps
    any other exception into [VideoProcessingError]. *)
Definition process_video_summaries (chunks : list str) : result (list str) :=
  match summarize_loop 1 (List.length chunks) chunks with
  | Ok summaries => Ok summaries
  | Err (VideoProcessingError m) => Err (VideoProcessingError m)
  | Err e => Err (VideoProcessingError (s_ "Failed to process video: " ++ exn_msg e))
  end.

(** The same loop in the single-file version. *)
Fixpoint summarize_loop_legacy (i total_chunks : nat) (chunks : list str) : list str :=
  match chunks with
  | [] => []
  | chunk :: chunks' =>
      summarize_chunk_legacy chunk i total_chunks
        :: summarize_loop_legacy (S i) total_chunks chunks'
  end.

Definition process_video_summaries_legacy (chunks : list str) : list str :=
  summarize_loop_legacy 1 (List.length chunks) chunks.

End Summarize.

(** [for i in range(len(summaries))] of the table of contents. *)
Fixpoint toc_loop (markdown_doc : str) (i remaining : nat) : str :=
  match remaining with
  | 0 => markdown_doc
  | S remaining' =>
      toc_loop (markdown_doc ++ s_ "- [Part " ++ nat_str (i + 1) ++ s_ "](#part-"
                ++ nat_str (i + 1) ++ s_ ")" ++ nl) (S i) remaining'
  end.

(** [for i, summary in enumerate(summaries, 1)] *)
Fixpoint body_loop (markdown_doc : str) (i n : nat) (summaries : list str) : str :=
  match summaries with
  | [] => markdown_doc
  | summary :: summaries' =>
      let markdown_doc :=
        if 1 <? n then markdown_doc ++ s_ "## Part " ++ nat_str i ++ nl ++ nl
        else markdown_doc in
      let markdown_doc := markdown_doc ++ summary ++ nl ++ nl in
      let markdown_doc :=
        if i <? n then markdown_doc ++ s_ "---" ++ nl ++ nl else markdown_doc in
      body_loop markdown_doc (S i) n summaries'
  end.

(** [SummaryGenerator.merge_summaries]; [current_date] is
    [self._get_current_date()]. *)
Definition merge_summaries (current_date : str) (summaries : list str)
  (video_title : str) : str :=
  let n := List.length summaries in
  let title := if nonempty video_title then video_title
               else s_ "YouTube Video Summary" in
  let markdown_doc := s_ "# " ++ title ++ nl ++ nl in
  let markdown_doc :=
    markdown_doc ++ s_ "*Generated on: " ++ current_date ++ s_ "*" ++ nl in
  let markdown_doc :=
    markdown_doc ++ s_ "*Total sections: " ++ nat_str n ++ s_ "*" ++ nl ++ nl in
  let markdown_doc :=
    if 1 <? n then
      toc_loop (markdown_doc ++ s_ "## Table of Contents" ++ nl ++ nl) 0 n
      ++ nl ++ s_ "---" ++ nl ++ nl
    else markdown_doc in
  body_loop markdown_doc 1 n summaries.

(** Specification side of the document layout. *)
Definition doc_header (current_date video_title : str) (n : nat) : str :=
  s_ "# " ++ (if nonempty video_title then video_title else s_ "YouTube Video Summary")
  ++ nl ++ nl ++ s_ "*Generated on: " ++ current_date ++ s_ "*" ++ nl
  ++ s_ "*Total sections: " ++ nat_str n ++ s_ "*" ++ nl ++ nl.

Definition toc_entry (i : nat) : str :=
  s_ "- [Part " ++ nat_str i ++ s_ "](#part-" ++ nat_str i ++ s_ ")" ++ nl.

Definition toc_section (n : nat) : str :=
  s_ "## Table of Contents" ++ nl ++ nl ++ List.concat (map toc_entry (seq 1 n))
  ++ nl ++ s_ "---" ++ nl ++ nl.

Definition part_section (n i : nat) (summary : str) : str :=
  s_ "## Part " ++ nat_str i ++ nl ++ nl ++ summary ++ nl ++ nl
  ++ (if i <? n then s_ "---" ++ nl ++ nl else []).

Fixpoint parts_from (n i : nat) (summaries : list str) : str :=
  match summaries with
  | [] => []
  | s :: ss => part_section n i s ++ parts_from n (S i) ss
  end.

(** Substring test. *)
Fixpoint prefixb (p s : str) : bool :=
  match p, s with
  | [], _ => true
  | c :: p', d :: s' => Ascii.eqb c d && prefixb p' s'
  | _ :: _, [] => false
  end.

Fixpoint contains (s p : str) : bool :=
  prefixb p s || match s with [] => false | _ :: s' => contains s' p end.

(** Specification side of the sanitiser's properties. *)

Definition is_underscore (c : ascii) : bool := Ascii.eqb c underscore.

(** Characters that are neither a space nor an underscore. *)
Definition keep_char (c : ascii) : bool :=
  negb (Ascii.eqb c " "%char || Ascii.eqb c underscore).

Definition space_to_underscore (c : ascii) : ascii :=
  if Ascii.eqb c " "%char then underscore else c.

(** No two adjacent underscores. *)
Definition no_double_underscore (l : str) : Prop :=
  forall a b, l <> a ++ underscore :: underscore :: b.

(** Maximal runs of characters on which [sep] is false, in order. *)
Fixpoint fields_aux (sep : ascii -> bool) (cur : str) (s : str) : list str :=
  match s with
  | [] => if nonempty cur then [rev cur] else []
  | c :: rest =>
      if sep c then
        (if nonempty cur then rev cur :: fields_aux sep [] rest else fields_aux sep [] rest)
      else fields_aux sep (c :: cur) rest
  end.

Definition fields (sep : ascii -> bool) (s : str) : list str := fields_aux sep [] s.

(** The separators of a sanitised name: the space and the underscore. *)
Definition is_name_sep (c : ascii) : bool :=
  Ascii.eqb c " "%char || Ascii.eqb c underscore.

(** ** Video title from the watch page ([get_video_title_from_html])

    [span_not_lt] takes the maximal run of characters other than [<]: the
    greedy [[^<]+] of the regex can only end there, since the closing tag
    starts with [<]. *)
Fixpoint span_not_lt (s : str) : str * str :=
  match s with
  | [] => ([], [])
  | c :: rest =>
      if Ascii.eqb c "<"%char then ([], s)
      else let '(x, y) := span_not_lt rest in (c :: x, y)
  end.

(** [<title>([^<]+)</title>] matched at the start of [s]: the group. *)
Definition title_match_at (s : str) : option str :=
  if prefixb (s_ "<title>") s then
    let '(x, rest) := span_not_lt (skipn 7 s) in
    if nonempty x && prefixb (s_ "</title>") rest then Some x else None
  else None.

(** [re.search]: the leftmost match. *)
Fixpoint title_search (s : str) : option str :=
  match s with
  | [] => None
  | _ :: rest =>
      match title_match_at s with
      | Some x => Some x
      | None => title_search rest
      end
  end.

Definition youtube_suffix : str := s_ " - YouTube".

(** [re.sub(r" - YouTube$", "", title)]: without MULTILINE, [$] matches
    at the end of the string and also just before a final newline. *)
Definition remove_youtube_suffix (title : str) : str :=
  let r := rev title in
  if prefixb (rev youtube_suffix) r then rev (skipn 10 r)
  else
    match r with
    | c :: r' =>
        if Ascii.eqb c "010"%char && prefixb (rev youtube_suffix) r'
        then rev (skipn 10 r') ++ [c]
        else title
    | [] => title
    end.

Definition default_video_title : str := s_ "YouTube Video Summary".

(** [get_video_title_from_html]; [response] is the outcome of
    [requests.get] on the watch page: its text, or the exception that the
    [except Exception] clause catches. *)
Definition get_video_title_from_html (response : result str) : str :=
  match response with
  | Err _ => default_video_title
  | Ok text =>
      match title_search text with
      | Some title => remove_youtube_suffix title
      | None => default_video_title
      end
  end.

(** ** Video ids of a playlist page ([extract_playlist_video_ids])

    [[A-Za-z0-9_-]] *)
Definition is_video_id_char (c : ascii) : bool :=
  let n := nat_of_ascii c in
  ((65 <=? n) && (n <=? 90)) || ((97 <=? n) && (n <=? 122))
  || ((48 <=? n) && (n <=? 57)) || (n =? 95) || (n =? 45).

(** [watch\?v=([A-Za-z0-9_-]{11})] matched at the start of [s]: the group
    and the text after the match. *)
Definition watch_match_at (s : str) : option (str * str) :=
  if prefixb (s_ "watch?v=") s then
    let r := skipn 8 s in
    let vid := firstn 11 r in
    if (List.length vid =? 11) && forallb is_video_id_char vid
    then Some (vid, skipn 11 r) else None
  else None.

(** [pattern.finditer(html)]: non-overlapping matches from left to right,
    the scan resuming after each match. Each step consumes at least one
    character, so the fuel [List.length html] is enough. *)
Fixpoint watch_finditer (fuel : nat) (s : str) : list str :=
  match fuel with
  | 0 => []
  | S fuel' =>
      match s with
      | [] => []
      | _ :: rest =>
          match watch_match_at s with
          | Some (vid, after) => vid :: watch_finditer fuel' after
          | None => watch_finditer fuel' rest
          end
      end
  end.

Definition video_id_matches (html : str) : list str :=
  watch_finditer (List.length html) html.

(** The loop over the matches with the set [seen] and the list [ordered]. *)
Fixpoint collect_unique (seen ordered : list str) (vids : list str) : list str :=
  match vids with
  | [] => ordered
  | vid :: vids' =>
      if existsb (str_eqb vid) seen then collect_unique seen ordered vids'
      else collect_unique (vid :: seen) (ordered ++ [vid]) vids'
  end.

(** The ids returned for the page text [html] (after the playlist-URL
    guard and the request). *)
Definition playlist_ids_from_html (html : str) : list str :=
  collect_unique [] [] (video_id_matches html).

(** ** [YouTubeSummarizer.process_playlist]

    [process_video] is the outcome of [self.process_video] on a URL;
    [video_ids] the outcome of [extract_playlist_video_ids]. *)
Definition watch_url (vid : str) : str :=
  s_ "https://www.youtube.com/watch?v=" ++ vid.

Inductive playlist_result : Type :=
  | PlaylistOk (output_files : list str)
  | PlaylistError (msg : str).

Fixpoint playlist_loop (process_video : str -> result str) (output_files : list str)
  (vids : list str) : list str :=
  match vids with
  | [] => output_files
  | vid :: vids' =>
      match process_video (watch_url vid) with
      | Ok out_path => playlist_loop process_video (output_files ++ [out_path]) vids'
      | Err _ => playlist_loop process_video output_files vids'
      end
  end.

Definition process_playlist (process_video : str -> result str)
  (video_ids : result (list str)) : playlist_result :=
  match video_ids with
  | Err e => PlaylistError (s_ "Failed to process playlist: " ++ exn_msg e)
  | Ok vids => PlaylistOk (playlist_loop process_video [] vids)
  end.

(** ** [SummaryGenerator.save_summary]: the path of the written file. *)
Definition save_summary_path (output_dir video_title : str) : str :=
  output_dir ++ "/"%char :: sanitize_filename video_title ++ s_ ".md".

(** ** [ProviderConfig] ([yt_summarizer/core/provider_config.py])

    Dictionaries of headers and body fields as association lists. *)
Record ProviderSettings : Type := mkProviderSettings {
  default_model : str;
  base_url : option str;
  api_key_env : str;
  extra_headers : list (str * str);
  extra_body : list (str * str)
}.

Record Settings : Type := mkSettings {
  providers : list (str * ProviderSettings);
  default_provider : str
}.

(** [Settings.get_provider_setting]; [None] is its [ValueError]. *)
Definition get_provider_setting (cfg : Settings) (provider : str)
  : option ProviderSettings :=
  match find (fun kv => str_eqb (fst kv) provider) (providers cfg) with
  | Some (_, ps) => Some ps
  | None => None
  end.

(** Python [a or b] on optional strings, and with a string last operand. *)
Definition py_or (a b : option str) : option str :=
  match a with Some x => if nonempty x then Some x else b | None => b end.

Definition py_or_str (a : option str) (b : str) : str :=
  match a with Some x => if nonempty x then x else b | None => b end.

Record ProviderConfig : Type := mkProviderConfig {
  pc_provider : str;
  pc_provider_settings : ProviderSettings;
  pc_model : str;
  pc_api_key : str;
  pc_base_url : option str;
  pc_extra_headers : list (str * str);
  pc_extra_body : list (str * str)
}.

Inductive config_result : Type :=
  | ConfigOk (c : ProviderConfig)
  | ConfigurationError (msg : str).

Definition api_key_required_msg (provider env : str) : str :=
  s_ "API key required for " ++ provider ++ s_ ". Set " ++ env
  ++ s_ " environment variable or pass api_key parameter.".

(** [ProviderConfig.__init__]; [getenv] is [os.getenv]. *)
Definition provider_config_init (cfg : Settings) (getenv : str -> option str)
  (provider model api_key : option str) : config_result :=
  let provider := py_or_str (py_or provider (getenv (s_ "AI_PROVIDER")))
                    (default_provider cfg) in
  match get_provider_setting cfg provider with
  | None => ConfigurationError (s_ "Provider " ++ provider ++ s_ " not configured")
  | Some ps =>
      let model := py_or_str (py_or model (getenv (s_ "AI_MODEL"))) (default_model ps) in
      match py_or api_key (getenv (api_key_env ps)) with
      | Some k =>
          if nonempty k then
            ConfigOk (mkProviderConfig provider ps model k (base_url ps)
                        (extra_headers ps) (extra_body ps))
          else ConfigurationError (api_key_required_msg provider (api_key_env ps))
      | None => ConfigurationError (api_key_required_msg provider (api_key_env ps))
      end
  end.

(** The provider table and default provider of [Settings()]. *)
Definition default_settings : Settings :=
  mkSettings
    [(s_ "openai",
      mkProviderSettings (s_ "gpt-3.5-turbo") None (s_ "OPENAI_API_KEY") [] []);
     (s_ "openrouter",
      mkProviderSettings (s_ "openai/gpt-oss-20b:free")
        (Some (s_ "https://openrouter.ai/api/v1")) (s_ "OPENROUTER_API_KEY")
        [(s_ "HTTP-Referer", s_ "https://nichsedge.github.io/digital-garden");
         (s_ "X-Title", s_ "Youtube Summarizer")] []);
     (s_ "ollama",
      mkProviderSettings (s_ "llama3.2:3b") (Some (s_ "http://localhost:11434/v1"))
        (s_ "OLLAMA_API_KEY") [] [])]
    (s_ "openrouter").

(** ** Shape of whitespace in a string

    Every whitespace character is a space and no two are adjacent. *)
Definition single_spaced (s : str) : Prop :=
  (forall c, In c s -> is_space c = true -> c = " "%char)
  /\ (forall a b c d, s = a ++ c :: d :: b -> is_space c = false \/ is_space d = false).

(** Neither the first nor the last character is whitespace. *)
Definition trimmed (s : str) : Prop :=
  (forall c t, s = c :: t -> is_space c = false)
  /\ (forall c t, rev s = c :: t -> is_space c = false).

Example split_sentences_ex :
  split_sentences (s_ "a.  b! c") = [s_ "a."; s_ "b!"; s_ "c"].
Proof. reflexivity. Qed.

Example split_ex1 :
  split_text_into_chunks (mock_count_tokens 1) 1 (s_ "a. b c d")
  = [s_ "a."; s_ "b c d"].
Proof. reflexivity. Qed.

Example split_ex2 :
  split_text_into_chunks (mock_count_tokens 1) 2 (s_ "one two three")
  = [s_ "one two"; s_ "three"].
Proof. reflexivity. Qed.

Example sanitize_ex1 : sanitize_filename (s_ "test<file>name") = s_ "testfilename".
Proof. reflexivity. Qed.
Example sanitize_ex2 : sanitize_filename (s_ "  a   b  ") = s_ "a_b".
Proof. reflexivity. Qed.
Example merge_ex : merge_summaries (s_ "D") [s_ "x"; s_ "y"] (s_ "T") =
  doc_header (s_ "D") (s_ "T") 2 ++ toc_section 2 ++ parts_from 2 1 [s_ "x"; s_ "y"].
Proof. reflexivity. Qed.

(** * Proofs *)

(** ** Words, whitespace and stripping *)

Lemma nonempty_rev : forall s : str, nonempty (rev s) = nonempty s.
Proof.
  intros [|c s]; simpl; [reflexivity|].
  destruct (rev s); reflexivity.
Qed.

Lemma words_aux_app_space : forall a cur b c,
  is_space c = true ->
  words_aux cur (a ++ c :: b) = words_aux cur a ++ words_aux [] b.
Proof.
  induction a as [|d a IH]; intros cur b c Hc; simpl.
  - rewrite Hc. destruct cur; reflexivity.
  - destruct (is_space d).
    + destruct (nonempty cur); simpl; rewrite (IH [] b c Hc); reflexivity.
    + apply IH; assumption.
Qed.

Lemma words_aux_all_space : forall sp,
  forallb is_space sp = true -> words_aux [] sp = [].
Proof.
  induction sp as [|c sp IH]; simpl; intros H; [reflexivity|].
  apply andb_prop in H as [Hc Hs]. rewrite Hc. apply IH, Hs.
Qed.

Lemma words_aux_app_spaces : forall sp a cur,
  forallb is_space sp = true -> words_aux cur (a ++ sp) = words_aux cur a.
Proof.
  intros [|c sp] a cur H.
  - rewrite app_nil_r. reflexivity.
  - simpl in H. apply andb_prop in H as [Hc Hs].
    rewrite (words_aux_app_space a cur sp c Hc), words_aux_all_space by exact Hs.
    apply app_nil_r.
Qed.

Lemma lstrip_by_split : forall p s,
  exists pre, s = pre ++ lstrip_by p s /\ forallb p pre = true.
Proof.
  intros p. induction s as [|c s IH]; simpl.
  - exists []. auto.
  - destruct (p c) eqn:Hc.
    + destruct IH as [pre [Heq Hall]]. exists (c :: pre). simpl.
      rewrite Hc, <- Heq. auto.
    + exists []. auto.
Qed.

Lemma words_lstrip : forall s, words (lstrip_by is_space s) = words s.
Proof.
  unfold words. induction s as [|c s IH]; simpl; [reflexivity|].
  destruct (is_space c) eqn:Hc; simpl; rewrite ?Hc; [|reflexivity].
  rewrite IH. reflexivity.
Qed.

Lemma words_strip : forall s, words (strip s) = words s.
Proof.
  intros s. unfold strip, strip_by.
  set (s1 := lstrip_by is_space s).
  destruct (lstrip_by_split is_space (rev s1)) as [pre [Heq Hall]].
  assert (Hs1 : s1 = rev (lstrip_by is_space (rev s1)) ++ rev pre).
  { rewrite <- rev_app_distr, <- Heq, rev_involutive. reflexivity. }
  transitivity (words s1); [|apply words_lstrip].
  rewrite Hs1 at 2. unfold words. symmetry. apply words_aux_app_spaces.
  rewrite forallb_forall in *. intros x Hx. apply Hall. apply in_rev. exact Hx.
Qed.

Lemma words_join_sp : forall a b, words (join_sp a b) = words a ++ words b.
Proof.
  intros [|c a] b; [reflexivity|]. unfold join_sp, words. simpl nonempty.
  cbv iota. apply words_aux_app_space. reflexivity.
Qed.

Lemma words_join_space : forall l, words (join_space l) = List.concat (map words l).
Proof.
  unfold join_space. induction l as [|x l IH]; [reflexivity|].
  destruct l as [|y l].
  - simpl. rewrite app_nil_r. reflexivity.
  - change (join_with " "%char (x :: y :: l)) with (x ++ " "%char :: join_with " "%char (y :: l)).
    unfold words in *. rewrite words_aux_app_space by reflexivity.
    rewrite IH. reflexivity.
Qed.

Lemma words_aux_nonspace : forall w cur,
  forallb (fun c => negb (is_space c)) w = true ->
  words_aux cur w = if nonempty (rev cur ++ w) then [rev cur ++ w] else [].
Proof.
  induction w as [|c w IH]; intros cur H; simpl.
  - rewrite app_nil_r, nonempty_rev. reflexivity.
  - apply andb_prop in H as [Hc Hw]. apply negb_true_iff in Hc. rewrite Hc.
    rewrite IH by exact Hw. simpl. rewrite <- app_assoc. simpl.
    destruct (rev cur); reflexivity.
Qed.

Lemma words_aux_words_are_words : forall s cur,
  forallb (fun c => negb (is_space c)) cur = true ->
  Forall (fun w => words w = [w]) (words_aux cur s).
Proof.
  assert (Hone : forall cur, forallb (fun c => negb (is_space c)) cur = true ->
            nonempty cur = true -> words (rev cur) = [rev cur]).
  { intros cur Hcur Hne. unfold words. rewrite words_aux_nonspace.
    - simpl. rewrite nonempty_rev, Hne. reflexivity.
    - rewrite forallb_forall in *. intros x Hx. apply Hcur, in_rev, Hx. }
  induction s as [|c s IH]; intros cur Hcur; simpl.
  - destruct (nonempty cur) eqn:Hne; constructor; auto.
  - destruct (is_space c) eqn:Hc.
    + destruct (nonempty cur) eqn:Hne; [constructor|]; auto; apply IH; reflexivity.
    + apply IH. simpl. rewrite Hc, Hcur. reflexivity.
Qed.

Lemma concat_words_words : forall s, List.concat (map words (words s)) = words s.
Proof.
  intros s. pose proof (words_aux_words_are_words s [] eq_refl) as H.
  fold (words s) in H. induction H as [|w ws Hw _ IH]; [reflexivity|].
  simpl. rewrite Hw, IH. reflexivity.
Qed.

Lemma split_sentences_aux_words : forall s ap sk cur,
  (sk = true -> cur = []) ->
  List.concat (map words (split_sentences_aux ap sk cur s)) = words (rev cur ++ s).
Proof.
  induction s as [|c s IH]; intros ap sk cur Hsk; simpl.
  - rewrite !app_nil_r. reflexivity.
  - destruct sk.
    + rewrite (Hsk eq_refl). simpl. destruct (is_space c) eqn:Hc.
      * rewrite IH by auto. unfold words. simpl. rewrite Hc. reflexivity.
      * rewrite IH by discriminate. reflexivity.
    + destruct (ap && is_space c) eqn:Hac.
      * apply andb_prop in Hac as [_ Hc]. simpl.
        rewrite IH by auto. unfold words. rewrite words_aux_app_space by exact Hc.
        reflexivity.
      * rewrite IH by discriminate. simpl. rewrite <- app_assoc. reflexivity.
Qed.

Lemma split_sentences_words : forall text,
  List.concat (map words (split_sentences text)) = words text.
Proof.
  intros text. apply split_sentences_aux_words. discriminate.
Qed.

(** ** The chunker keeps every word, in order *)

Section ChunkerWords.

Variable count_tokens : str -> nat.
Variable budget : nat.

Local Abbreviation cw l := (List.concat (map words l)).

Lemma word_loop_words : forall ws chunks temp_chunk,
  let '(chunks', temp') := word_loop count_tokens budget chunks temp_chunk ws in
  cw chunks' ++ words temp' = cw chunks ++ words temp_chunk ++ cw ws.
Proof.
  induction ws as [|w ws IH]; intros chunks temp; simpl.
  - rewrite app_nil_r. reflexivity.
  - destruct (budget <? count_tokens (join_sp temp w)).
    + destruct (nonempty temp) eqn:Ht.
      * specialize (IH (chunks ++ [strip temp]) w).
        destruct (word_loop _ _ _ _ _) as [c' t']. rewrite IH.
        rewrite map_app, concat_app. simpl. rewrite words_strip, !app_nil_r.
        rewrite !app_assoc. reflexivity.
      * destruct temp; [|discriminate].
        specialize (IH (chunks ++ [w]) []).
        destruct (word_loop _ _ _ _ _) as [c' t']. rewrite IH.
        rewrite map_app, concat_app. simpl. rewrite !app_nil_r, <- !app_assoc.
        reflexivity.
    + specialize (IH chunks (join_sp temp w)).
      destruct (word_loop _ _ _ _ _) as [c' t']. rewrite IH.
      rewrite words_join_sp, !app_assoc. reflexivity.
Qed.

Lemma sentence_loop_words : forall ss chunks current_chunk,
  let '(chunks', cur') := sentence_loop count_tokens budget chunks current_chunk ss in
  cw chunks' ++ words cur' = cw chunks ++ words current_chunk ++ cw ss.
Proof.
  induction ss as [|s ss IH]; intros chunks cur; simpl.
  - rewrite app_nil_r. reflexivity.
  - destruct (budget <? count_tokens (join_sp cur s)).
    + destruct (nonempty cur) eqn:Hc.
      * specialize (IH (chunks ++ [strip cur]) s).
        destruct (sentence_loop _ _ _ _ _) as [c' t']. rewrite IH.
        rewrite map_app, concat_app. simpl. rewrite words_strip, !app_nil_r.
        rewrite !app_assoc. reflexivity.
      * destruct cur; [|discriminate].
        pose proof (word_loop_words (words s) chunks []) as Hw.
        destruct (word_loop _ _ _ _ _) as [c1 t1].
        rewrite concat_words_words in Hw.
        destruct (nonempty t1) eqn:Ht1.
        -- specialize (IH c1 t1).
           destruct (sentence_loop _ _ _ _ _) as [c' t']. rewrite IH.
           rewrite app_assoc, Hw, <- !app_assoc. reflexivity.
        -- destruct t1; [|discriminate].
           specialize (IH c1 []).
           destruct (sentence_loop _ _ _ _ _) as [c' t']. rewrite IH.
           simpl in Hw. rewrite app_nil_r in Hw. simpl. rewrite Hw.
           rewrite <- !app_assoc. reflexivity.
    + specialize (IH chunks (join_sp cur s)).
      destruct (sentence_loop _ _ _ _ _) as [c' t']. rewrite IH.
      rewrite words_join_sp, !app_assoc. reflexivity.
Qed.

Lemma split_text_into_chunks_words : forall text,
  cw (split_text_into_chunks count_tokens budget text) = words text.
Proof.
  intros text. unfold split_text_into_chunks.
  pose proof (sentence_loop_words (split_sentences text) [] []) as H.
  destruct (sentence_loop _ _ _ _ _) as [c' t'].
  rewrite split_sentences_words in H. simpl in H.
  destruct (nonempty t') eqn:Ht.
  - rewrite map_app, concat_app. simpl. rewrite words_strip, app_nil_r. exact H.
  - destruct t'; [|discriminate]. simpl in H. rewrite app_nil_r in H. exact H.
Qed.

End ChunkerWords.

(** C4 (doc): joining the chunks of [split_text_into_chunks] with single
    spaces and collapsing whitespace gives the whitespace-collapsed input:
    every word of the input is in exactly one chunk, whole, in the input's
    order. It holds for every token estimator and every budget. *)
Theorem split_text_into_chunks_join_collapse : forall count_tokens budget text,
  collapse_ws (join_space (split_text_into_chunks count_tokens budget text))
  = collapse_ws text.
Proof.
  intros count_tokens budget text. unfold collapse_ws.
  rewrite words_join_space, split_text_into_chunks_words. reflexivity.
Qed.

(** ** Budget of the chunks *)

(** C2 (doc): the budget property of the chunks fails on inputs the code
    receives. With the tests' [MockEncoding] (one token per word) and a
    budget of 1, [split_text_into_chunks("a. b c d")] returns the chunk
    [b c d] of 3 tokens, which is not a single word: the sentence [b c d]
    is taken whole after the flush of [a.] and is never split by words.
    The whitespace-only input of three spaces gives one chunk that is
    empty after trimming. *)
Theorem split_text_into_chunks_budget_violation :
  split_text_into_chunks (mock_count_tokens 1) 1 (s_ "a. b c d")
    = [s_ "a."; s_ "b c d"]
  /\ 1 < mock_count_tokens 1 (s_ "b c d")
  /\ words (s_ "b c d") <> [s_ "b c d"]
  /\ split_text_into_chunks (mock_count_tokens 1) 1 (s_ "   ") = [[]].
Proof.
  split; [reflexivity|]. split; [vm_compute; lia|].
  split; [vm_compute; discriminate | reflexivity].
Qed.

(** ** Input that fits in the budget *)

Lemma split_sentences_aux_head : forall s ap cur,
  exists x tl, split_sentences_aux ap false cur s = (rev cur ++ x) :: tl.
Proof.
  induction s as [|c s IH]; intros ap cur; simpl.
  - exists [], []. rewrite app_nil_r. reflexivity.
  - destruct (ap && is_space c).
    + exists [], (split_sentences_aux false true [] s). rewrite app_nil_r. reflexivity.
    + destruct (IH (is_sentence_end c) (c :: cur)) as [x [tl Heq]].
      exists (c :: x), tl. rewrite Heq. simpl. rewrite <- app_assoc. reflexivity.
Qed.

Lemma join_space_cons : forall l x,
  join_space (x :: l) = x ++ List.concat (map (fun s => " "%char :: s) l).
Proof.
  unfold join_space. induction l as [|y l IH]; intros x.
  - simpl. rewrite app_nil_r. reflexivity.
  - change (join_with " "%char (x :: y :: l)) with (x ++ " "%char :: join_with " "%char (y :: l)).
    rewrite IH. reflexivity.
Qed.

Section Fits.

Variable count_tokens : str -> nat.
Variable budget : nat.
Hypothesis count_tokens_mono : forall a b, count_tokens a <= count_tokens (a ++ b).

Lemma sentence_loop_fits : forall ss chunks cur,
  nonempty cur = true ->
  count_tokens (cur ++ List.concat (map (fun s => " "%char :: s) ss)) <= budget ->
  sentence_loop count_tokens budget chunks cur ss
  = (chunks, cur ++ List.concat (map (fun s => " "%char :: s) ss)).
Proof.
  induction ss as [|s ss IH]; intros chunks cur Hne Hfit; simpl.
  - rewrite app_nil_r. reflexivity.
  - unfold join_sp. rewrite Hne.
    simpl in Hfit.
    assert (Hle : count_tokens (cur ++ " "%char :: s) <= budget).
    { eapply Nat.le_trans; [|exact Hfit].
      rewrite app_comm_cons, app_assoc. apply count_tokens_mono. }
    replace (budget <? count_tokens (cur ++ " "%char :: s)) with false
      by (symmetry; apply Nat.ltb_ge; exact Hle).
    rewrite IH.
    + rewrite <- app_assoc. reflexivity.
    + destruct cur; [discriminate|reflexivity].
    + rewrite <- app_assoc. exact Hfit.
Qed.

End Fits.

(** C6 (doc): the claim fails when a sentence end is followed by more than
    one whitespace character: with [MockEncoding] and budget 100, the
    non-empty input [a.] two spaces [b.] has 2 tokens, but the single
    chunk is [a. b.], not the trimmed input. *)
Lemma split_text_into_chunks_fits_counterexample :
  s_ "a.  b." <> []
  /\ mock_count_tokens 1 (s_ "a.  b.") <= 100
  /\ split_text_into_chunks (mock_count_tokens 1) 100 (s_ "a.  b.")
     <> [strip (s_ "a.  b.")].
Proof.
  split; [discriminate|]. split; [vm_compute; lia|].
  intros H. vm_compute in H. discriminate H.
Qed.

(** C6 (amended): for an estimator that never decreases when text is
    appended, a non-empty input whose sentence-normalised form (each
    whitespace run after [.], [!] or [?] replaced by one space) fits in
    the budget gives a single chunk: that normalised form, trimmed. *)
Theorem split_text_into_chunks_fits (count_tokens : str -> nat) (budget : nat)
  (text : str)
  (Hmono : forall a b, count_tokens a <= count_tokens (a ++ b))
  (Hne : text <> [])
  (Hfit : count_tokens (join_space (split_sentences text)) <= budget) :
  split_text_into_chunks count_tokens budget text
  = [strip (join_space (split_sentences text))].
Proof.
  destruct text as [|c t]; [contradiction|].
  unfold split_text_into_chunks, split_sentences in *. simpl in *.
  destruct (split_sentences_aux_head t (is_sentence_end c) [c]) as [x [tl Heq]].
  rewrite Heq in *. simpl in *. rewrite join_space_cons in *.
  assert (H1 : count_tokens (c :: x) <= budget).
  { eapply Nat.le_trans; [apply (Hmono (c :: x))|exact Hfit]. }
  change (join_sp [] (c :: x)) with (c :: x).
  replace (budget <? count_tokens (c :: x)) with false
    by (symmetry; apply Nat.ltb_ge; exact H1).
  rewrite sentence_loop_fits; [reflexivity|exact Hmono|reflexivity|exact Hfit].
Qed.

(** Witness of C6 (amended), with the character count as estimator. *)
Lemma split_text_into_chunks_fits_witness :
  split_text_into_chunks (@List.length ascii) 100 (s_ "a.  b.") = [s_ "a. b."].
Proof.
  rewrite (split_text_into_chunks_fits (@List.length ascii) 100 (s_ "a.  b.")).
  - reflexivity.
  - intros a b. rewrite length_app. lia.
  - discriminate.
  - vm_compute. lia.
Defined.

(** ** [sanitize_filename] *)

Lemma sanitize_filename_unfold : forall s,
  sanitize_filename s
  = strip_by is_underscore
      (collapse_underscores
         (map space_to_underscore
            (filter (fun c => negb (is_invalid_filename_char c)) s))).
Proof. reflexivity. Qed.

Lemma in_collapse_underscores : forall l b c,
  In c (collapse_underscores_aux b l) -> In c l.
Proof.
  induction l as [|d l IH]; intros b c H; simpl in *; [exact H|].
  destruct (Ascii.eqb d underscore); [destruct b|]; simpl in H;
    try destruct H as [H|H]; eauto.
Qed.

Lemma in_lstrip_by : forall p l c, In c (lstrip_by p l) -> In c l.
Proof.
  induction l as [|d l IH]; intros c H; simpl in *; [exact H|].
  destruct (p d); [right; apply IH, H | exact H].
Qed.

Lemma in_strip_by : forall p l c, In c (strip_by p l) -> In c l.
Proof.
  intros p l c H. unfold strip_by in H.
  apply in_rev, in_lstrip_by, in_rev, in_lstrip_by in H. exact H.
Qed.

Lemma lstrip_by_head : forall p l c rest,
  lstrip_by p l = c :: rest -> p c = false.
Proof.
  induction l as [|d l IH]; intros c rest H; simpl in H; [discriminate|].
  destruct (p d) eqn:Hd; [eapply IH, H|].
  injection H as <- _. exact Hd.
Qed.

Lemma collapse_underscores_head : forall l rest,
  collapse_underscores_aux true l <> underscore :: rest.
Proof.
  induction l as [|d l IH]; intros rest H; simpl in H; [discriminate|].
  destruct (Ascii.eqb d underscore) eqn:Hd; [eapply IH, H|].
  injection H as Hdu _. subst d. discriminate Hd.
Qed.

Lemma collapse_underscores_no_double : forall l b,
  no_double_underscore (collapse_underscores_aux b l).
Proof.
  induction l as [|d l IH]; intros b a r H; simpl in H.
  - destruct a; discriminate.
  - destruct (Ascii.eqb d underscore) eqn:Hd.
    + destruct b; [eapply IH, H|].
      destruct a as [|x a]; simpl in H; injection H as Hx H.
      * eapply collapse_underscores_head, H.
      * eapply IH, H.
    + destruct a as [|x a]; simpl in H; injection H as Hx H.
      * subst d. discriminate Hd.
      * eapply IH, H.
Qed.

Lemma no_double_underscore_suffix : forall pre l,
  no_double_underscore (pre ++ l) -> no_double_underscore l.
Proof.
  intros pre l H a b Hl. apply (H (pre ++ a) b). rewrite Hl, app_assoc. reflexivity.
Qed.

Lemma no_double_underscore_rev : forall l,
  no_double_underscore l -> no_double_underscore (rev l).
Proof.
  intros l H a b Hl. apply (H (rev b) (rev a)).
  rewrite <- (rev_involutive l), Hl, rev_app_distr. simpl.
  rewrite <- !app_assoc. reflexivity.
Qed.

Lemma no_double_underscore_lstrip : forall p l,
  no_double_underscore l -> no_double_underscore (lstrip_by p l).
Proof.
  intros p l H. destruct (lstrip_by_split p l) as [pre [Heq _]].
  rewrite Heq in H. eapply no_double_underscore_suffix, H.
Qed.

Lemma filter_keep_lstrip : forall l,
  filter keep_char (lstrip_by is_underscore l) = filter keep_char l.
Proof.
  induction l as [|d l IH]; simpl; [reflexivity|].
  destruct (is_underscore d) eqn:Hd; [|reflexivity].
  rewrite IH. unfold is_underscore in Hd. apply Ascii.eqb_eq in Hd. subst d.
  reflexivity.
Qed.

Lemma filter_rev' : forall (f : ascii -> bool) l, filter f (rev l) = rev (filter f l).
Proof.
  induction l as [|d l IH]; simpl; [reflexivity|].
  rewrite filter_app, IH. simpl. destruct (f d); simpl; [reflexivity|].
  apply app_nil_r.
Qed.

Lemma filter_keep_collapse : forall l b,
  filter keep_char (collapse_underscores_aux b l) = filter keep_char l.
Proof.
  induction l as [|d l IH]; intros b; simpl; [reflexivity|].
  destruct (Ascii.eqb d underscore) eqn:Hd.
  - apply Ascii.eqb_eq in Hd. subst d.
    destruct b; simpl; apply IH.
  - simpl. rewrite IH. reflexivity.
Qed.

Lemma filter_keep_space_to_underscore : forall l,
  filter keep_char (map space_to_underscore l) = filter keep_char l.
Proof.
  induction l as [|d l IH]; simpl; [reflexivity|].
  change (space_to_underscore d)
    with (if Ascii.eqb d " "%char then underscore else d).
  destruct (Ascii.eqb d " "%char) eqn:Hd.
  - apply Ascii.eqb_eq in Hd. subst d. simpl. exact IH.
  - rewrite IH. reflexivity.
Qed.

(** Fields of the sanitiser's intermediate strings. *)

Lemma fields_aux_cons : forall p cur c l,
  fields_aux p cur (c :: l)
  = if p c then (if nonempty cur then rev cur :: fields_aux p [] l else fields_aux p [] l)
    else fields_aux p (c :: cur) l.
Proof. reflexivity. Qed.

Lemma fields_space_to_underscore : forall l cur,
  fields_aux is_underscore cur (map space_to_underscore l) = fields_aux is_name_sep cur l.
Proof.
  induction l as [|c l IH]; intros cur; [reflexivity|].
  assert (E : is_underscore (space_to_underscore c) = is_name_sep c
              /\ (is_name_sep c = false -> space_to_underscore c = c)).
  { unfold is_underscore, space_to_underscore, is_name_sep.
    destruct (Ascii.eqb c " "%char); simpl; split; auto. discriminate. }
  change (map space_to_underscore (c :: l))
    with (space_to_underscore c :: map space_to_underscore l).
  rewrite !fields_aux_cons, (proj1 E).
  destruct (is_name_sep c) eqn:Hc; [rewrite !IH; reflexivity|].
  rewrite (proj2 E eq_refl), IH. reflexivity.
Qed.

Lemma fields_collapse : forall l b cur, (b = true -> cur = []) ->
  fields_aux is_underscore cur (collapse_underscores_aux b l)
  = fields_aux is_underscore cur l.
Proof.
  induction l as [|c l IH]; intros b cur Hb; [reflexivity|].
  simpl collapse_underscores_aux. destruct (Ascii.eqb c underscore) eqn:Hc.
  - assert (Hu : is_underscore c = true) by exact Hc.
    destruct b.
    + rewrite (Hb eq_refl), fields_aux_cons, Hu. simpl nonempty. cbv iota.
      apply (IH true []). reflexivity.
    + rewrite !fields_aux_cons, Hu, (IH true []) by reflexivity. reflexivity.
  - assert (Hu : is_underscore c = false) by exact Hc.
    rewrite !fields_aux_cons, Hu, IH by discriminate. reflexivity.
Qed.

Lemma fields_lstrip : forall p l, fields_aux p [] (lstrip_by p l) = fields_aux p [] l.
Proof.
  intros p. induction l as [|c l IH]; [reflexivity|].
  simpl lstrip_by. rewrite fields_aux_cons. destruct (p c) eqn:Hc; [exact IH|].
  rewrite fields_aux_cons, Hc. reflexivity.
Qed.

Lemma fields_app_seps : forall p q, forallb p q = true ->
  forall l cur, fields_aux p cur (l ++ q) = fields_aux p cur l.
Proof.
  intros p q Hq. induction l as [|c l IH]; intros cur.
  - simpl. revert cur. induction q as [|d q IHq]; intros cur; [reflexivity|].
    simpl in Hq. apply andb_true_iff in Hq as [Hd Hq].
    rewrite fields_aux_cons, Hd, (IHq Hq []). destruct cur; reflexivity.
  - simpl app. rewrite !fields_aux_cons, !IH. reflexivity.
Qed.

Lemma fields_strip : forall p l, fields_aux p [] (strip_by p l) = fields_aux p [] l.
Proof.
  intros p l. unfold strip_by. rewrite <- (fields_lstrip p l).
  set (l1 := lstrip_by p l).
  destruct (lstrip_by_split p (rev l1)) as [pre [Heq Hall]].
  assert (E : l1 = rev (lstrip_by p (rev l1)) ++ rev pre).
  { rewrite <- rev_app_distr, <- Heq, rev_involutive. reflexivity. }
  rewrite E at 2. rewrite fields_app_seps; [reflexivity|].
  apply forallb_forall. intros c Hc. rewrite <- in_rev in Hc.
  rewrite forallb_forall in Hall. apply Hall, Hc.
Qed.

Lemma fields_nonnil : forall p l cur, cur <> [] -> fields_aux p cur l <> [].
Proof.
  intros p. induction l as [|c l IH]; intros cur Hcur.
  - destruct cur; [contradiction|discriminate].
  - rewrite fields_aux_cons. destruct (p c).
    + destruct cur; [contradiction|discriminate].
    + apply IH. discriminate.
Qed.

Lemma join_with_cons : forall sep x l,
  l <> [] -> join_with sep (x :: l) = x ++ sep :: join_with sep l.
Proof. intros sep x [|y l] H; [contradiction|reflexivity]. Qed.

(** A string with no doubled and no outer underscore is the underscore join
    of its fields. *)
Lemma join_fields_canonical : forall out cur,
  no_double_underscore out ->
  (cur = [] -> hd_error out <> Some underscore) ->
  hd_error (rev out) <> Some underscore ->
  join_with underscore (fields_aux is_underscore cur out) = rev cur ++ out.
Proof.
  induction out as [|c out IH]; intros cur Hnd Hhd Hlast.
  - destruct cur as [|a cur]; simpl; rewrite ?app_nil_r; reflexivity.
  - assert (Hnd' : no_double_underscore out)
      by (apply (no_double_underscore_suffix [c]); exact Hnd).
    assert (Hlast' : hd_error (rev out) <> Some underscore).
    { simpl in Hlast. destruct (rev out) as [|d t]; [discriminate|exact Hlast]. }
    rewrite fields_aux_cons. destruct (Ascii.eqb c underscore) eqn:Hc.
    + replace (is_underscore c) with true by (symmetry; exact Hc).
      apply Ascii.eqb_eq in Hc. subst c.
      destruct cur as [|a cur]; [exfalso; apply (Hhd eq_refl); reflexivity|].
      destruct out as [|d out]; [contradiction Hlast; reflexivity|].
      assert (Hd : Ascii.eqb d underscore = false).
      { destruct (Ascii.eqb d underscore) eqn:E; [|reflexivity].
        apply Ascii.eqb_eq in E. subst d. exfalso. apply (Hnd [] out). reflexivity. }
      simpl nonempty. cbv iota. rewrite join_with_cons.
      * rewrite (IH []); [reflexivity|exact Hnd'| |exact Hlast'].
        intros _ E. injection E as E. subst d. rewrite Ascii.eqb_refl in Hd. discriminate Hd.
      * rewrite fields_aux_cons. replace (is_underscore d) with false by (symmetry; exact Hd).
        apply fields_nonnil. discriminate.
    + replace (is_underscore c) with false by (symmetry; exact Hc).
      rewrite IH; [|exact Hnd'|discriminate|exact Hlast'].
      simpl. rewrite <- app_assoc. reflexivity.
Qed.

(** C7 (doc): the claim fails on whitespace other than the space: the tab
    of [a], tab, [b] is kept, the result is not [a_b]. *)
Lemma sanitize_filename_tab_counterexample :
  sanitize_filename ["a"; "009"; "b"]%char = ["a"; "009"; "b"]%char
  /\ sanitize_filename ["a"; "009"; "b"]%char <> s_ "a_b".
Proof. split; [reflexivity | discriminate]. Qed.

(** C7 (amended): [sanitize_filename] removes the characters
    [< > : / \ | ? *] and the double quote, turns every space character into an underscore
    (other whitespace such as tabs and newlines is kept), collapses
    underscore runs and strips underscores at both ends. The result holds
    none of the removed characters and no space, has no two adjacent
    underscores, neither starts nor ends with an underscore, and keeps
    every other character of the input in order. Exactly: the result is
    the underscore join of the maximal runs of characters other than space
    and underscore of the input with the removed characters deleted. The
    two examples of the spec hold. *)
Theorem sanitize_filename_spec :
  (forall s,
     let out := sanitize_filename s in
     (forall c, In c out -> is_invalid_filename_char c = false /\ c <> " "%char)
     /\ no_double_underscore out
     /\ hd_error out <> Some underscore
     /\ hd_error (rev out) <> Some underscore
     /\ filter keep_char out
        = filter keep_char (filter (fun c => negb (is_invalid_filename_char c)) s)
     /\ out = join_with underscore
               (fields is_name_sep (filter (fun c => negb (is_invalid_filename_char c)) s)))
  /\ sanitize_filename (s_ "test<file>name") = s_ "testfilename"
  /\ sanitize_filename (s_ "  a   b  ") = s_ "a_b".
Proof.
  split; [|split; reflexivity].
  intros s out.
  assert (Hshape :
    (forall c, In c out -> is_invalid_filename_char c = false /\ c <> " "%char)
    /\ no_double_underscore out
    /\ hd_error out <> Some underscore
    /\ hd_error (rev out) <> Some underscore
    /\ filter keep_char out
       = filter keep_char (filter (fun c => negb (is_invalid_filename_char c)) s)).
  { subst out. rewrite sanitize_filename_unfold.
  set (L0 := filter (fun c => negb (is_invalid_filename_char c)) s).
  set (L := collapse_underscores (map space_to_underscore L0)).
  set (L1 := lstrip_by is_underscore L).
  set (R := lstrip_by is_underscore (rev L1)).
  assert (Hout : strip_by is_underscore L = rev R) by reflexivity.
  rewrite Hout. split; [|split; [|split; [|split]]].
  - intros c Hc. rewrite <- Hout in Hc.
    apply in_strip_by, in_collapse_underscores, in_map_iff in Hc.
    destruct Hc as [d [Hdc Hd]]. unfold L0 in Hd. apply filter_In in Hd as [_ Hv].
    apply negb_true_iff in Hv. subst c. unfold space_to_underscore.
    destruct (Ascii.eqb d " "%char) eqn:Hsp.
    + split; [reflexivity|discriminate].
    + split; [exact Hv|]. intros E. subst d. discriminate Hsp.
  - apply no_double_underscore_rev, no_double_underscore_lstrip,
      no_double_underscore_rev, no_double_underscore_lstrip,
      collapse_underscores_no_double.
  - destruct (rev R) as [|c t] eqn:HR; [discriminate|]. simpl. intros E.
    injection E as ->.
    destruct (lstrip_by_split is_underscore (rev L1)) as [pre [Heq _]].
    fold R in Heq.
    assert (HL1 : L1 = underscore :: (t ++ rev pre)).
    { rewrite <- (rev_involutive L1), Heq, rev_app_distr, HR. reflexivity. }
    apply lstrip_by_head in HL1. discriminate HL1.
  - rewrite rev_involutive. destruct R as [|c t] eqn:HR; [discriminate|].
    simpl. intros E. injection E as ->. apply lstrip_by_head in HR.
    discriminate HR.
  - rewrite filter_rev'. unfold R. rewrite filter_keep_lstrip, filter_rev',
      rev_involutive. unfold L1. rewrite filter_keep_lstrip. unfold L.
    unfold collapse_underscores.
    rewrite filter_keep_collapse, filter_keep_space_to_underscore. reflexivity. }
  destruct Hshape as [H1 [H2 [H3 [H4 H5]]]].
  do 5 (split; [assumption|]).
  transitivity (join_with underscore (fields_aux is_underscore [] out)).
  { rewrite join_fields_canonical; [reflexivity|exact H2|intros _; exact H3|exact H4]. }
  f_equal. unfold fields. rewrite <- fields_space_to_underscore.
  subst out. rewrite sanitize_filename_unfold, fields_strip.
  unfold collapse_underscores. apply fields_collapse. discriminate.
Qed.

(** ** The transcript selector *)

Lemma first_fetched_app : forall a b,
  first_fetched (a ++ b)
  = match first_fetched a with Some s => Some s | None => first_fetched b end.
Proof.
  induction a as [|t a IH]; intros b; simpl; [reflexivity|].
  destruct (fetch t); [reflexivity|apply IH].
Qed.

Lemma find_none_forall : forall (A : Type) (f : A -> bool) l,
  (forall x, In x l -> f x = false) -> find f l = None.
Proof.
  intros A f. induction l as [|x l IH]; intros H; simpl; [reflexivity|].
  rewrite (H x (or_introl eq_refl)). apply IH. intros y Hy. apply H. right. exact Hy.
Qed.

Section SelectorProofs.

Variable settings : ProcessingSettings.

Local Abbreviation opt_list o := (match o with Some t => [t] | None => [] end).

Lemma priority1_attempts : forall tl langs,
  priority1 settings tl langs
  = if prefer_manual_transcripts settings then
      first_fetched
        (flat_map (fun l => opt_list (find (fun t => negb (is_generated t)
                                              && str_eqb (language_code t) l) tl))
           langs)
    else None.
Proof.
  intros tl. induction langs as [|l langs IH]; simpl.
  - destruct (prefer_manual_transcripts settings); reflexivity.
  - unfold priority1_attempt, find_transcript.
    destruct (find (fun t => negb (is_generated t) && str_eqb (language_code t) l) tl)
      as [t|] eqn:Hm.
    + apply find_some in Hm as [_ Hm]. apply andb_prop in Hm as [Hm _].
      simpl. rewrite Hm. destruct (prefer_manual_transcripts settings); simpl.
      * destruct (fetch t); [reflexivity|]. rewrite IH. reflexivity.
      * exact IH.
    + simpl. rewrite IH.
      destruct (find (fun t => is_generated t && str_eqb (language_code t) l) tl)
        as [t|] eqn:Hg; simpl.
      * apply find_some in Hg as [_ Hg]. apply andb_prop in Hg as [Hg _].
        rewrite Hg, andb_false_r. reflexivity.
      * reflexivity.
Qed.

Lemma priority2_attempts : forall tl langs,
  priority2 tl langs
  = first_fetched
      (flat_map (fun l => opt_list (find (fun t => is_generated t
                                            && str_eqb (language_code t) l) tl))
         langs).
Proof.
  intros tl. induction langs as [|l langs IH]; simpl; [reflexivity|].
  unfold priority2_attempt, find_generated_transcript.
  destruct (find _ tl) as [t|]; simpl; [|exact IH].
  destruct (fetch t); simpl; [reflexivity|exact IH].
Qed.

Lemma priority3_scan_find : forall tl,
  priority3_scan tl
  = match find is_generated tl with
    | Some t => fetched <- fetch t ;; Ok (Some (format_transcript fetched))
    | None => Ok None
    end.
Proof.
  induction tl as [|t tl IH]; simpl; [reflexivity|].
  destruct (is_generated t); [reflexivity|exact IH].
Qed.

Lemma priority3_attempts : forall tl,
  priority3 tl = first_fetched (opt_list (find is_generated tl)).
Proof.
  intros tl. unfold priority3. rewrite priority3_scan_find.
  destruct (find is_generated tl) as [t|]; simpl; [|reflexivity].
  destruct (fetch t); reflexivity.
Qed.

Lemma get_subtitles_listed : forall tl,
  get_subtitles settings (Ok tl)
  = match first_fetched (state_attempts settings tl) with
    | Some s => Ok s
    | None => Err (TranscriptError no_subtitles_msg)
    end.
Proof.
  intros tl. unfold get_subtitles, state_attempts. simpl bind. cbv zeta.
  rewrite priority1_attempts, priority2_attempts, priority3_attempts.
  rewrite !first_fetched_app.
  destruct (prefer_manual_transcripts settings); simpl;
    repeat match goal with |- context [match ?x with Some _ => _ | None => _ end] =>
      destruct x; simpl end; reflexivity.
Qed.

End SelectorProofs.

(** C5 (doc): inside [get_subtitles] every exception of a lookup or of a
    fetch is caught and the next language or state is tried; the only
    exception that leaves [get_subtitles] is [TranscriptError], raised
    exactly when no attempted track of states A, B and C can be fetched,
    or when listing the transcripts fails. The result is the first
    attempted track that is fetched, in the order of the states. *)
Theorem get_subtitles_errors :
  (forall settings listing,
     match get_subtitles settings listing with
     | Ok _ => True
     | Err e => is_transcript_error e = true
     end)
  /\ (forall settings tl,
        get_subtitles settings (Ok tl)
        = match first_fetched (state_attempts settings tl) with
          | Some s => Ok s
          | None => Err (TranscriptError no_subtitles_msg)
          end)
  /\ (forall settings e, exists m,
        get_subtitles settings (Err e) = Err (TranscriptError m)).
Proof.
  split; [|split].
  - intros settings listing. unfold get_subtitles.
    destruct (bind listing _) as [s|[]]; simpl; reflexivity || exact I.
  - exact get_subtitles_listed.
  - intros settings e. unfold get_subtitles. simpl.
    destruct e; eexists; reflexivity.
Qed.

(** C3 (doc): the three-state order of the selector. With the tracks
    [en] manual then [en] generated, [prefer_manual] and priority [en], the
    manual track's text is returned; with the single track [fr] generated
    and priority [en], the selector reaches state C and returns the [fr]
    text. In general, when no track has a priority language, the result is
    the first generated track of the list, in its listed order. *)
Theorem get_subtitles_priority_order :
  (forall max_tokens manual_entries generated_entries,
     get_subtitles (mkProcessingSettings max_tokens [s_ "en"] true)
       (Ok [mkTranscript (s_ "en") false (Ok manual_entries);
            mkTranscript (s_ "en") true (Ok generated_entries)])
     = Ok (format_transcript manual_entries))
  /\ (forall max_tokens fr_entries,
        get_subtitles (mkProcessingSettings max_tokens [s_ "en"] true)
          (Ok [mkTranscript (s_ "fr") true (Ok fr_entries)])
        = Ok (format_transcript fr_entries))
  /\ (forall settings tl,
        Forall (fun t => ~ In (language_code t) (language_priority settings)) tl ->
        get_subtitles settings (Ok tl)
        = match find is_generated tl with
          | Some t =>
              match fetch t with
              | Ok entries => Ok (format_transcript entries)
              | Err _ => Err (TranscriptError no_subtitles_msg)
              end
          | None => Err (TranscriptError no_subtitles_msg)
          end).
Proof.
  split; [|split].
  - intros. reflexivity.
  - intros. reflexivity.
  - intros settings tl Hlang. rewrite get_subtitles_listed. unfold state_attempts.
    assert (Hnone : forall (g : Transcript -> bool) l, In l (language_priority settings) ->
              find (fun t => g t && str_eqb (language_code t) l) tl = None).
    { intros g l Hl. apply find_none_forall. intros t Ht.
      rewrite Forall_forall in Hlang. specialize (Hlang t Ht).
      unfold str_eqb. destruct (list_eq_dec ascii_dec (language_code t) l) as [E|_].
      - subst l. contradiction.
      - apply andb_false_r. }
    assert (Hflat : forall g ls,
              (forall l, In l ls -> In l (language_priority settings)) ->
              flat_map (fun l => match find (fun t => g t && str_eqb (language_code t) l) tl
                                 with Some t => [t] | None => [] end) ls = []).
    { intros g ls Hls. induction ls as [|l ls IH]; [reflexivity|].
      simpl. rewrite Hnone by (apply Hls; left; reflexivity). apply IH.
      intros l' Hl'. apply Hls. right. exact Hl'. }
    rewrite (Hflat is_generated _ (fun l H => H)).
    rewrite (Hflat (fun t => negb (is_generated t)) _ (fun l H => H)).
    destruct (prefer_manual_transcripts settings); simpl;
      destruct (find is_generated tl) as [t|]; simpl; try reflexivity;
      destruct (fetch t); reflexivity.
Qed.

(** Witness of C3: the general case at a list of two generated tracks in
    languages outside the priority list. *)
Lemma get_subtitles_priority_order_witness :
  get_subtitles (mkProcessingSettings 3000 [s_ "en"] true)
    (Ok [mkTranscript (s_ "de") false (Ok [s_ "x"]);
         mkTranscript (s_ "fr") true (Ok [s_ "bonjour"; s_ "le  monde"]);
         mkTranscript (s_ "es") true (Ok [s_ "hola"])])
  = Ok (s_ "bonjour le monde").
Proof.
  rewrite (proj2 (proj2 get_subtitles_priority_order)).
  - reflexivity.
  - repeat constructor; simpl; intros [H|[]]; discriminate H.
Defined.

(** C10 (doc): with [prefer_manual_transcripts] false, state A never
    returns, whatever the tracks; so a video whose only track is a manual
    one in the priority language gets [TranscriptError]. *)
Theorem get_subtitles_prefer_manual_off :
  (forall max_tokens langs tl langs',
     priority1 (mkProcessingSettings max_tokens langs false) tl langs' = None)
  /\ (forall max_tokens entries,
        get_subtitles (mkProcessingSettings max_tokens [s_ "en"] false)
          (Ok [mkTranscript (s_ "en") false (Ok entries)])
        = Err (TranscriptError no_subtitles_msg)).
Proof.
  split.
  - intros. rewrite priority1_attempts. reflexivity.
  - intros. reflexivity.
Qed.

(** ** Per-chunk summarisation failures *)

Section SummarizeProofs.

Variable provider : str.
Variable chat_completion : str -> nat -> nat -> result str.

Lemma summarize_loop_legacy_nth : forall chunks i n k,
  nth_error (summarize_loop_legacy provider chat_completion i n chunks) k
  = option_map (fun c => summarize_chunk_legacy provider chat_completion c (i + k) n)
      (nth_error chunks k).
Proof.
  induction chunks as [|c chunks IH]; intros i n k; simpl.
  - destruct k; reflexivity.
  - destruct k as [|k]; simpl.
    + rewrite Nat.add_0_r. reflexivity.
    + rewrite IH. rewrite Nat.add_succ_r. reflexivity.
Qed.

Lemma summarize_loop_failure : forall chunks i n k c e,
  nth_error chunks k = Some c ->
  chat_completion c (i + k) n = Err e ->
  exists e', summarize_loop provider chat_completion i n chunks = Err e'.
Proof.
  induction chunks as [|c0 chunks IH]; intros i n k c e Hk He.
  - destruct k; discriminate.
  - simpl. unfold summarize_chunk at 1.
    destruct k as [|k]; simpl in Hk.
    + injection Hk as <-. rewrite Nat.add_0_r in He. rewrite He. eexists. reflexivity.
    + destruct (chat_completion c0 i n); [|eexists; reflexivity]. simpl.
      rewrite Nat.add_succ_r in He.
      destruct (IH (S i) n k c e Hk He) as [e' He']. rewrite He'.
      eexists. reflexivity.
Qed.

Lemma summarize_loop_success : forall chunks i n,
  (forall k c, nth_error chunks k = Some c ->
     exists s, chat_completion c (i + k) n = Ok s) ->
  summarize_loop provider chat_completion i n chunks
  = Ok (summarize_loop_legacy provider chat_completion i n chunks).
Proof.
  induction chunks as [|c chunks IH]; intros i n H; simpl; [reflexivity|].
  destruct (H 0 c eq_refl) as [s Hs]. rewrite Nat.add_0_r in Hs.
  unfold summarize_chunk, summarize_chunk_legacy. rewrite Hs. simpl.
  rewrite IH; [reflexivity|].
  intros k c' Hk. replace (S i + k) with (i + S k) by lia. apply (H (S k) c' Hk).
Qed.

End SummarizeProofs.

(** C1 (doc): the package's pipeline propagates a chunk failure: with two
    chunks and a provider error on chunk 1, [process_video] fails with
    [VideoProcessingError]; no document is produced. *)
Lemma process_video_chunk_failure_counterexample :
  process_video_summaries (s_ "openrouter")
    (fun _ chunk_number _ =>
       if chunk_number =? 1 then Err (ApiError (s_ "timeout")) else Ok (s_ "summary"))
    [s_ "first chunk"; s_ "second chunk"]
  = Err (VideoProcessingError
           (s_ "Failed to process video: Error summarizing chunk 1 with openrouter: timeout")).
Proof. reflexivity. Qed.

(** C1 (amended): in the single-file [youtube_summarizer_openai.py] a
    failing chunk gets the placeholder text [Error summarizing chunk N
    with P: msg] and the loop goes on, every other chunk keeping its own
    summary at its own position; in the package ([yt_summarizer]) the
    failure is raised as [ProviderError] and [process_video] fails with
    [VideoProcessingError]; when no chunk fails, both give the same
    summaries. *)
Theorem summarize_chunk_failure_policy :
  (forall provider chat_completion chunks k,
     nth_error (process_video_summaries_legacy provider chat_completion chunks) k
     = option_map
         (fun c => match chat_completion c (S k) (List.length chunks) with
                   | Ok content => strip content
                   | Err e => error_summarizing_msg provider (S k) e
                   end)
         (nth_error chunks k))
  /\ (forall provider chat_completion chunks k c e,
        nth_error chunks k = Some c ->
        chat_completion c (S k) (List.length chunks) = Err e ->
        exists m, process_video_summaries provider chat_completion chunks
                  = Err (VideoProcessingError m))
  /\ (forall provider chat_completion chunks,
        (forall k c, nth_error chunks k = Some c ->
           exists s, chat_completion c (S k) (List.length chunks) = Ok s) ->
        process_video_summaries provider chat_completion chunks
        = Ok (process_video_summaries_legacy provider chat_completion chunks)).
Proof.
  split; [|split].
  - intros provider call chunks k. unfold process_video_summaries_legacy.
    rewrite summarize_loop_legacy_nth. reflexivity.
  - intros provider call chunks k c e Hk He.
    unfold process_video_summaries.
    destruct (summarize_loop_failure provider call chunks 1 (List.length chunks) k c e Hk He)
      as [e' He'].
    rewrite He'. destruct e'; eexists; reflexivity.
  - intros provider call chunks H. unfold process_video_summaries.
    rewrite summarize_loop_success; [reflexivity|]. exact H.
Qed.

(** ** Layout of the merged document *)

Lemma app_cons_assoc : forall (a : ascii) (l r : str), (a :: l) ++ r = a :: (l ++ r).
Proof. reflexivity. Qed.

Lemma app_assoc_r : forall (l m r : str), (l ++ m) ++ r = l ++ (m ++ r).
Proof. intros. rewrite app_assoc. reflexivity. Qed.

Create Rewrite HintDb str_norm.
#[local] Hint Rewrite app_cons_assoc app_assoc_r app_nil_l : str_norm.

(** Normalise concatenations of string pieces to a right-nested form. *)
Ltac str_norm := simpl; autorewrite with str_norm; reflexivity.

Lemma toc_loop_closed : forall k doc i,
  toc_loop doc i k = doc ++ List.concat (map toc_entry (seq (i + 1) k)).
Proof.
  induction k as [|k IH]; intros doc i.
  - simpl. rewrite app_nil_r. reflexivity.
  - change (toc_loop doc i (S k)) with (toc_loop (doc ++ toc_entry (i + 1)) (S i) k).
    rewrite IH. change (seq (i + 1) (S k)) with (i + 1 :: seq (S (i + 1)) k).
    cbn [map List.concat]. replace (S i + 1) with (S (i + 1)) by lia.
    rewrite app_assoc_r. reflexivity.
Qed.

Lemma body_loop_closed : forall ss doc i n,
  (1 <? n) = true ->
  body_loop doc i n ss = doc ++ parts_from n i ss.
Proof.
  induction ss as [|s ss IH]; intros doc i n Hn; simpl.
  - rewrite app_nil_r. reflexivity.
  - rewrite Hn, IH by exact Hn. unfold part_section.
    destruct (i <? n); str_norm.
Qed.

(** C9 (doc): the claim fails when the title itself has the words: the
    document of the single summary [x] titled [Table of Contents] holds
    that substring. *)
Lemma merge_summaries_title_counterexample :
  contains (merge_summaries (s_ "2026-10-19 12:00:00") [s_ "x"] (s_ "Table of Contents"))
    (s_ "Table of Contents") = true.
Proof. vm_compute. reflexivity. Qed.

(** C9 (amended): for one summary the document is the title line and the
    two metadata lines followed directly by the summary, with no table of
    contents and no [## Part] header added; for [N >= 2] summaries it is
    the same header, then a [## Table of Contents] section listing
    [- [Part i](#part-i)] for [i = 1..N] in order, then for each [i] a
    [## Part i] header with the [i]-th summary, separated by [---]. For
    two summaries this gives exactly two list entries and two [## Part]
    headers. Text of the title, the date or the summaries is copied as
    is. *)
Theorem merge_summaries_layout :
  (forall current_date video_title s,
     merge_summaries current_date [s] video_title
     = doc_header current_date video_title 1 ++ s ++ nl ++ nl)
  /\ (forall current_date video_title s1 s2 rest,
        merge_summaries current_date (s1 :: s2 :: rest) video_title
        = doc_header current_date video_title (List.length (s1 :: s2 :: rest))
          ++ toc_section (List.length (s1 :: s2 :: rest))
          ++ parts_from (List.length (s1 :: s2 :: rest)) 1 (s1 :: s2 :: rest))
  /\ (forall current_date video_title s1 s2,
        merge_summaries current_date [s1; s2] video_title
        = doc_header current_date video_title 2
          ++ s_ "## Table of Contents" ++ nl ++ nl
          ++ s_ "- [Part 1](#part-1)" ++ nl
          ++ s_ "- [Part 2](#part-2)" ++ nl
          ++ nl ++ s_ "---" ++ nl ++ nl
          ++ s_ "## Part 1" ++ nl ++ nl ++ s1 ++ nl ++ nl
          ++ s_ "---" ++ nl ++ nl
          ++ s_ "## Part 2" ++ nl ++ nl ++ s2 ++ nl ++ nl).
Proof.
  split; [|split].
  - intros d t s. unfold merge_summaries, doc_header. str_norm.
  - intros d t s1 s2 rest. unfold merge_summaries.
    set (n := List.length (s1 :: s2 :: rest)).
    assert (Hn : (1 <? n) = true) by (apply Nat.ltb_lt; unfold n; simpl; lia).
    rewrite Hn, body_loop_closed by exact Hn. rewrite toc_loop_closed.
    unfold doc_header, toc_section. str_norm.
  - intros d t s1 s2. unfold merge_summaries, doc_header. str_norm.
Qed.

(** * Further properties of the pipeline *)

(** ** Whitespace shape of the transcript text *)

Lemma words_aux_cons_nonnil : forall s c cur, words_aux (c :: cur) s <> [].
Proof.
  induction s as [|a s IH]; intros c cur; simpl; [discriminate|].
  destruct (is_space a); [discriminate|apply IH].
Qed.

Lemma words_aux_nil : forall s cur,
  words_aux cur s = [] -> cur = [] /\ forallb is_space s = true.
Proof.
  induction s as [|a s IH]; intros cur H; simpl in *.
  - destruct cur; [auto|discriminate].
  - destruct (is_space a) eqn:Ha.
    + destruct cur; [|discriminate]. simpl in H. split; [reflexivity|].
      simpl. apply (IH [] H).
    + exfalso. eapply words_aux_cons_nonnil, H.
Qed.

Lemma words_nil_iff : forall s, words s = [] <-> forallb is_space s = true.
Proof.
  intros s. split.
  - intros H. apply (words_aux_nil s []), H.
  - apply words_aux_all_space.
Qed.

Lemma words_sub_runs : forall p,
  (forall c, p c = true -> is_space c = true) ->
  forall s b cur, (b = true -> cur = []) ->
  words_aux cur (sub_runs_aux p b s) = words_aux cur s.
Proof.
  intros p Hp. induction s as [|a s IH]; intros b cur Hb; simpl; [reflexivity|].
  destruct (p a) eqn:Hpa.
  - rewrite (Hp a Hpa). destruct b.
    + rewrite (Hb eq_refl). simpl. apply IH. auto.
    + simpl. rewrite IH by auto. reflexivity.
  - simpl. destruct (is_space a); rewrite IH by discriminate; reflexivity.
Qed.

Lemma words_join_with : forall sep l,
  is_space sep = true -> words (join_with sep l) = List.concat (map words l).
Proof.
  intros sep l Hsep. induction l as [|x l IH]; [reflexivity|].
  destruct l as [|y l].
  - simpl. rewrite app_nil_r. reflexivity.
  - change (join_with sep (x :: y :: l)) with (x ++ sep :: join_with sep (y :: l)).
    unfold words in *. rewrite words_aux_app_space by exact Hsep.
    rewrite IH. reflexivity.
Qed.

Lemma words_format_transcript : forall l,
  words (format_transcript l) = List.concat (map words l).
Proof.
  intros l. unfold format_transcript. rewrite words_strip. unfold words, sub_runs.
  rewrite (words_sub_runs is_space (fun c H => H)) by discriminate.
  rewrite words_sub_runs by (try discriminate; intros c H; unfold is_newline in H;
                             apply Ascii.eqb_eq in H; subst c; reflexivity).
  apply words_join_with. reflexivity.
Qed.

Lemma single_spaced_nil : single_spaced [].
Proof.
  split.
  - intros c [].
  - intros a b c d H. destruct a; discriminate.
Qed.

Lemma single_spaced_cons : forall c t,
  single_spaced (c :: t) <->
  ((is_space c = true -> c = " "%char /\ forall d t', t = d :: t' -> is_space d = false)
   /\ single_spaced t).
Proof.
  intros c t. split.
  - intros [Hin Hadj]. split; [|split].
    + intros Hc. split; [apply Hin; [left|]; auto|].
      intros d t' ->. destruct (Hadj [] t' c d eq_refl) as [H|H]; [congruence|exact H].
    + intros x Hx. apply Hin. right. exact Hx.
    + intros a b x y ->. apply (Hadj (c :: a) b). reflexivity.
  - intros [Hc [Hin Hadj]]. split.
    + intros x [<-|Hx]; [intros H; apply Hc, H|apply Hin, Hx].
    + intros [|a0 a] b x y H; simpl in H; injection H as Hx Ht.
      * subst. destruct (is_space x) eqn:Hs; [|left; reflexivity].
        right. apply (proj2 (Hc eq_refl) y b eq_refl).
      * eapply Hadj, Ht.
Qed.

Lemma single_spaced_app_r : forall a b, single_spaced (a ++ b) -> single_spaced b.
Proof.
  intros a b [Hin Hadj]. split.
  - intros c Hc. apply Hin, in_or_app. right. exact Hc.
  - intros x y c d ->. apply (Hadj (a ++ x) y). rewrite <- app_assoc. reflexivity.
Qed.

Lemma single_spaced_rev : forall s, single_spaced s -> single_spaced (rev s).
Proof.
  intros s [Hin Hadj]. split.
  - intros c Hc. apply Hin, in_rev, Hc.
  - intros a b c d H.
    assert (Hs : s = rev b ++ d :: c :: rev a).
    { rewrite <- (rev_involutive s), H, rev_app_distr. simpl.
      rewrite <- !app_assoc. reflexivity. }
    destruct (Hadj (rev b) (rev a) d c Hs); auto.
Qed.

Lemma single_spaced_lstrip : forall p s, single_spaced s -> single_spaced (lstrip_by p s).
Proof.
  intros p s H. destruct (lstrip_by_split p s) as [pre [Heq _]].
  rewrite Heq in H. eapply single_spaced_app_r, H.
Qed.

Lemma single_spaced_strip : forall s, single_spaced s -> single_spaced (strip s).
Proof.
  intros s H. unfold strip, strip_by.
  apply single_spaced_rev, single_spaced_lstrip, single_spaced_rev, single_spaced_lstrip, H.
Qed.

Lemma single_spaced_sub_runs : forall s b,
  single_spaced (sub_runs_aux is_space b s)
  /\ (b = true -> forall c t, sub_runs_aux is_space b s = c :: t -> is_space c = false).
Proof.
  induction s as [|a s IH]; intros b; simpl.
  - split; [apply single_spaced_nil|discriminate].
  - destruct (is_space a) eqn:Ha.
    + destruct b; [apply IH|].
      split; [|discriminate].
      apply single_spaced_cons. split; [|apply IH].
      intros _. split; [reflexivity|]. apply (proj2 (IH true) eq_refl).
    + split.
      * apply single_spaced_cons. split; [congruence|apply IH].
      * intros _ c t H. injection H as <- _. exact Ha.
Qed.

Lemma trimmed_strip : forall s, trimmed (strip s).
Proof.
  intros s. unfold strip, strip_by.
  set (L1 := lstrip_by is_space s). set (R := lstrip_by is_space (rev L1)).
  split.
  - intros c t HR.
    destruct (lstrip_by_split is_space (rev L1)) as [pre [Heq _]]. fold R in Heq.
    assert (HL1 : L1 = c :: (t ++ rev pre)).
    { rewrite <- (rev_involutive L1), Heq, rev_app_distr, HR. reflexivity. }
    eapply lstrip_by_head, HL1.
  - intros c t HR. rewrite rev_involutive in HR. eapply lstrip_by_head, HR.
Qed.

Lemma lstrip_by_id : forall p s, (forall c t, s = c :: t -> p c = false) ->
  lstrip_by p s = s.
Proof.
  intros p [|c t] H; [reflexivity|]. simpl. rewrite (H c t eq_refl). reflexivity.
Qed.

Lemma strip_trimmed : forall s, trimmed s -> strip s = s.
Proof.
  intros s [H1 H2]. unfold strip, strip_by.
  rewrite (lstrip_by_id is_space s H1), (lstrip_by_id is_space (rev s) H2).
  apply rev_involutive.
Qed.

Lemma trimmed_tail_end : forall a s,
  (forall c t, rev (a :: s) = c :: t -> is_space c = false) ->
  (forall c t, rev s = c :: t -> is_space c = false).
Proof.
  intros a s H c t Hs. apply (H c (t ++ [a])). simpl. rewrite Hs. reflexivity.
Qed.

Lemma join_space_words_aux : forall s cur,
  single_spaced s ->
  (cur = [] -> forall c t, s = c :: t -> is_space c = false) ->
  (forall c t, rev s = c :: t -> is_space c = false) ->
  join_space (words_aux cur s) = rev cur ++ s.
Proof.
  induction s as [|a s IH]; intros cur Hss Hstart Hend; simpl.
  - rewrite app_nil_r. destruct cur as [|x cur]; reflexivity.
  - apply single_spaced_cons in Hss as [Ha Hss].
    pose proof (trimmed_tail_end a s Hend) as Hend'.
    destruct (is_space a) eqn:Has.
    + destruct cur as [|x cur].
      { rewrite (Hstart eq_refl a s eq_refl) in Has. discriminate. }
      destruct (Ha eq_refl) as [Haeq Hnext].
      destruct s as [|d s'].
      { rewrite (Hend a [] eq_refl) in Has. discriminate. }
      assert (Hd : is_space d = false) by (apply (Hnext d s'); reflexivity).
      simpl nonempty. cbv iota.
      assert (HW : join_space (words_aux [] (d :: s')) = d :: s').
      { apply IH; auto. }
      change (words_aux [] (d :: s')) with
        (if is_space d then (if nonempty [] then rev [] :: words_aux [] s'
                             else words_aux [] s') else words_aux [d] s') in *.
      rewrite Hd in *.
      destruct (words_aux [d] s') as [|w ws] eqn:HW2.
      { exfalso. eapply words_aux_cons_nonnil, HW2. }
      change (join_space (rev (x :: cur) :: w :: ws))
        with (rev (x :: cur) ++ " "%char :: join_space (w :: ws)).
      rewrite HW, Haeq. reflexivity.
    + rewrite IH; auto.
      * simpl. rewrite <- app_assoc. reflexivity.
      * discriminate.
Qed.

Lemma join_space_words_canonical : forall s,
  single_spaced s -> trimmed s -> join_space (words s) = s.
Proof.
  intros s Hss [H1 H2]. apply (join_space_words_aux s []); auto.
Qed.

Lemma format_transcript_shape : forall l,
  single_spaced (format_transcript l) /\ trimmed (format_transcript l).
Proof.
  intros l. unfold format_transcript. split.
  - apply single_spaced_strip. apply (single_spaced_sub_runs _ false).
  - apply trimmed_strip.
Qed.

Lemma format_transcript_canonical : forall l,
  format_transcript l = join_space (List.concat (map words l)).
Proof.
  intros l. rewrite <- words_format_transcript.
  destruct (format_transcript_shape l) as [H1 H2].
  symmetry. apply join_space_words_canonical; assumption.
Qed.

(** ** Shape of the chunks *)

Lemma words_aux_shape : forall s cur,
  forallb (fun c => negb (is_space c)) cur = true ->
  Forall (fun w => w <> [] /\ forallb (fun c => negb (is_space c)) w = true)
    (words_aux cur s).
Proof.
  assert (Hrev : forall cur, forallb (fun c => negb (is_space c)) cur = true ->
            forallb (fun c => negb (is_space c)) (rev cur) = true).
  { intros cur H. rewrite forallb_forall in *. intros x Hx. apply H, in_rev, Hx. }
  induction s as [|c s IH]; intros cur Hcur; simpl.
  - destruct cur as [|x cur]; constructor; auto. split; [|apply Hrev, Hcur].
    simpl. destruct (rev cur); discriminate.
  - destruct (is_space c) eqn:Hc.
    + destruct cur as [|x cur]; [apply IH; reflexivity|].
      constructor; [|apply IH; reflexivity].
      split; [simpl; destruct (rev cur); discriminate|apply Hrev, Hcur].
    + apply IH. simpl. rewrite Hc, Hcur. reflexivity.
Qed.

Lemma word_trimmed : forall w,
  forallb (fun c => negb (is_space c)) w = true -> trimmed w.
Proof.
  intros w H. rewrite forallb_forall in H. split.
  - intros c t ->. apply negb_true_iff, H. left. reflexivity.
  - intros c t Ht. apply negb_true_iff, H. apply in_rev. rewrite Ht. left. reflexivity.
Qed.

Lemma forallb_space_app : forall a b,
  forallb is_space (a ++ b) = forallb is_space a && forallb is_space b.
Proof. intros a b. apply forallb_app. Qed.

Lemma blank_strip : forall s, forallb is_space (strip s) = forallb is_space s.
Proof.
  intros s. destruct (forallb is_space s) eqn:H.
  - apply words_nil_iff. rewrite words_strip. apply words_nil_iff, H.
  - destruct (forallb is_space (strip s)) eqn:H'; [|reflexivity].
    apply words_nil_iff in H'. rewrite words_strip in H'.
    apply words_nil_iff in H'. congruence.
Qed.

Lemma blank_join_sp : forall a b,
  forallb is_space b = false -> forallb is_space (join_sp a b) = false.
Proof.
  intros a b Hb. unfold join_sp. destruct (nonempty a); [|exact Hb].
  rewrite forallb_space_app. simpl. rewrite Hb. apply andb_false_r.
Qed.

Section ChunkShape.

Variable count_tokens : str -> nat.
Variable budget : nat.

(** Chunk invariant of the two loops: [Q] is a property of the buffers
    ([current_chunk], [temp_chunk]) and [P] one of the chunks; a buffer is
    empty or has [Q], and a chunk is a trimmed buffer or a word. *)
Variables P Q : str -> Prop.
Hypothesis Q_word : forall w, w <> [] ->
  forallb (fun c => negb (is_space c)) w = true -> Q w.
Hypothesis Q_join_r : forall a b, Q b -> Q (join_sp a b).
Hypothesis Q_join_l : forall a b, Q a -> Q (join_sp a b).
Hypothesis P_strip : forall s, Q s -> P (strip s).
Hypothesis P_word : forall w, w <> [] ->
  forallb (fun c => negb (is_space c)) w = true -> P w.

Lemma word_loop_shape : forall ws chunks temp,
  Forall P chunks -> (temp = [] \/ Q temp) ->
  Forall (fun w => w <> [] /\ forallb (fun c => negb (is_space c)) w = true) ws ->
  let '(chunks', temp') := word_loop count_tokens budget chunks temp ws in
  Forall P chunks' /\ (temp' = [] \/ Q temp').
Proof.
  induction ws as [|w ws IH]; intros chunks temp Hch Ht Hws; simpl; [auto|].
  inversion Hws as [|? ? [Hw1 Hw2] Hws']; subst.
  destruct (budget <? count_tokens (join_sp temp w)).
  - destruct (nonempty temp) eqn:Hne.
    + apply IH; auto. apply Forall_app. split; [exact Hch|].
      constructor; [|constructor]. apply P_strip.
      destruct Ht as [->|Ht]; [discriminate|exact Ht].
    + apply IH; auto. apply Forall_app. split; [exact Hch|].
      constructor; [apply P_word; assumption|constructor].
  - apply IH; auto.
Qed.

Lemma sentence_loop_shape : forall ss chunks cur,
  Forall P chunks -> (cur = [] \/ Q cur) ->
  Forall (fun s => s = [] \/ Q s) ss ->
  let '(chunks', cur') := sentence_loop count_tokens budget chunks cur ss in
  Forall P chunks' /\ (cur' = [] \/ Q cur').
Proof.
  induction ss as [|s ss IH]; intros chunks cur Hch Hcur Hss; simpl; [auto|].
  inversion Hss as [|? ? Hs Hss']; subst.
  destruct (budget <? count_tokens (join_sp cur s)).
  - destruct (nonempty cur) eqn:Hne.
    + apply IH; auto. apply Forall_app. split; [exact Hch|].
      constructor; [|constructor]. apply P_strip.
      destruct Hcur as [->|Hc]; [discriminate|exact Hc].
    + pose proof (word_loop_shape (words s) chunks [] Hch (or_introl eq_refl)
                    (words_aux_shape s [] eq_refl)) as Hw.
      destruct (word_loop _ _ _ _ _) as [c1 t1]. destruct Hw as [Hc1 Ht1].
      apply IH; auto. destruct (nonempty t1); auto.
  - apply IH; auto. destruct Hcur as [->|Hc]; [exact Hs|].
    right. apply Q_join_l, Hc.
Qed.

Lemma split_text_into_chunks_shape : forall text,
  Forall (fun s => s = [] \/ Q s) (split_sentences text) ->
  Forall P (split_text_into_chunks count_tokens budget text).
Proof.
  intros text Hss. unfold split_text_into_chunks.
  pose proof (sentence_loop_shape (split_sentences text) [] [] (Forall_nil _)
                (or_introl eq_refl) Hss) as H.
  destruct (sentence_loop _ _ _ _ _) as [c t]. destruct H as [Hc Ht].
  destruct (nonempty t) eqn:Hne; [|exact Hc].
  apply Forall_app. split; [exact Hc|]. constructor; [|constructor].
  apply P_strip. destruct Ht as [->|Ht]; [discriminate|exact Ht].
Qed.

End ChunkShape.

Lemma blank_join_sp_l : forall a b,
  forallb is_space a = false -> forallb is_space (join_sp a b) = false.
Proof.
  intros a b Ha. unfold join_sp. destruct a as [|c a]; [discriminate|].
  simpl nonempty. cbv iota. rewrite forallb_space_app, Ha. reflexivity.
Qed.

Lemma word_nonblank : forall w, w <> [] ->
  forallb (fun c => negb (is_space c)) w = true -> forallb is_space w = false.
Proof.
  intros [|c w] Hne H; [contradiction|]. simpl in *.
  apply andb_prop in H as [Hc _]. apply negb_true_iff in Hc. rewrite Hc. reflexivity.
Qed.

(** Pieces of [re.split]: each is empty or holds a non-whitespace
    character, as soon as the text holds one. *)
Lemma is_sentence_end_not_space : forall c,
  is_sentence_end c = true -> is_space c = false.
Proof.
  intros c H. unfold is_sentence_end in H.
  apply orb_prop in H as [H|H]; [apply orb_prop in H as [H|H]|];
    apply Ascii.eqb_eq in H; subst c; reflexivity.
Qed.

Lemma forallb_rev : forall (f : ascii -> bool) l, forallb f (rev l) = forallb f l.
Proof.
  intros f l. induction l as [|x l IH]; simpl; [reflexivity|].
  rewrite forallb_app, IH. simpl. rewrite andb_true_r. apply andb_comm.
Qed.

Lemma split_sentences_aux_pieces : forall s ap sk cur,
  (sk = true -> cur = []) ->
  (ap = true -> forallb is_space cur = false) ->
  (sk = true \/ forallb is_space cur = false \/ forallb is_space s = false) ->
  Forall (fun p => p = [] \/ forallb is_space p = false)
    (split_sentences_aux ap sk cur s).
Proof.
  induction s as [|c s IH]; intros ap sk cur Hsk Hap Hnb; simpl.
  - constructor; [|constructor]. rewrite forallb_rev.
    destruct Hnb as [H|[H|H]]; [left; rewrite (Hsk H); reflexivity|right; exact H|discriminate].
  - destruct sk.
    + destruct (is_space c) eqn:Hc.
      * apply IH; try discriminate; auto.
      * apply IH; [discriminate| |]; simpl; rewrite Hc; auto.
    + destruct (ap && is_space c) eqn:Hac.
      * apply andb_prop in Hac as [Hap1 _].
        constructor; [right; rewrite forallb_rev; apply Hap, Hap1|].
        apply IH; try discriminate; auto.
      * apply IH; [discriminate| |].
        -- intros He. simpl. rewrite (is_sentence_end_not_space c He). reflexivity.
        -- right. simpl. destruct Hnb as [H|[H|H]]; [discriminate| |].
           ++ left. rewrite H. apply andb_false_r.
           ++ simpl in H. destruct (is_space c); [right; exact H|left; reflexivity].
Qed.

Lemma split_sentences_pieces : forall text,
  words text <> [] ->
  Forall (fun p => p = [] \/ forallb is_space p = false) (split_sentences text).
Proof.
  intros text H. apply split_sentences_aux_pieces; try discriminate.
  right. right. destruct (forallb is_space text) eqn:Hb; [|reflexivity].
  apply words_nil_iff in Hb. contradiction.
Qed.

Lemma length_le_concat_words : forall l,
  Forall (fun c => words c <> []) l ->
  List.length l <= List.length (List.concat (map words l)).
Proof.
  induction 1 as [|c l Hc _ IH]; simpl; [lia|].
  rewrite length_app. destruct (words c); [contradiction|]. simpl. lia.
Qed.

(** ** Empty input *)

Lemma split_text_into_chunks_nil : forall count_tokens budget,
  split_text_into_chunks count_tokens budget [] = [].
Proof.
  intros count_tokens budget. unfold split_text_into_chunks. simpl.
  change (join_sp [] []) with (@nil ascii).
  destruct (budget <? count_tokens []); reflexivity.
Qed.

(** ** Sentence splitting of single-spaced text *)

Lemma split_sentences_aux_nonnil : forall s ap sk cur,
  split_sentences_aux ap sk cur s <> [].
Proof.
  induction s as [|c s IH]; intros ap sk cur; simpl; [discriminate|].
  destruct sk; [destruct (is_space c); apply IH|].
  destruct (ap && is_space c); [discriminate|apply IH].
Qed.

Lemma join_space_split_sentences_aux : forall s ap sk cur,
  single_spaced s ->
  (sk = true -> cur = [] /\ forall c t, s = c :: t -> is_space c = false) ->
  join_space (split_sentences_aux ap sk cur s) = rev cur ++ s.
Proof.
  induction s as [|c s IH]; intros ap sk cur Hss Hsk; simpl.
  - rewrite app_nil_r. reflexivity.
  - pose proof Hss as Hss0. apply single_spaced_cons in Hss as [Hc Hss].
    destruct sk.
    + destruct (Hsk eq_refl) as [-> Hhd].
      rewrite (Hhd c s eq_refl). rewrite IH; auto. discriminate.
    + destruct (ap && is_space c) eqn:Hac.
      * apply andb_prop in Hac as [_ Hsp]. destruct (Hc Hsp) as [-> Hnext].
        destruct (split_sentences_aux false true [] s) as [|p ps] eqn:Hp.
        { exfalso. eapply split_sentences_aux_nonnil, Hp. }
        change (join_space (rev cur :: p :: ps))
          with (rev cur ++ " "%char :: join_space (p :: ps)).
        rewrite <- Hp, IH; auto.
      * rewrite IH; auto; [|discriminate]. simpl. rewrite <- app_assoc. reflexivity.
Qed.

Lemma join_space_split_sentences : forall text,
  single_spaced text -> join_space (split_sentences text) = text.
Proof.
  intros text H. apply (join_space_split_sentences_aux text false false []); auto.
  discriminate.
Qed.

(** The single-chunk case of [split_text_into_chunks] for a monotone
    estimator. *)
Lemma split_text_into_chunks_single : forall (count_tokens : str -> nat) budget text,
  (forall a b, count_tokens a <= count_tokens (a ++ b)) ->
  text <> [] ->
  count_tokens (join_space (split_sentences text)) <= budget ->
  split_text_into_chunks count_tokens budget text
  = [strip (join_space (split_sentences text))].
Proof.
  intros count_tokens budget text Hmono Hne Hfit.
  destruct text as [|c t]; [contradiction|].
  unfold split_text_into_chunks, split_sentences in *. simpl in *.
  destruct (split_sentences_aux_head t (is_sentence_end c) [c]) as [x [tl Heq]].
  rewrite Heq in *. simpl in *. rewrite join_space_cons in *.
  assert (H1 : count_tokens (c :: x) <= budget).
  { eapply Nat.le_trans; [apply (Hmono (c :: x))|exact Hfit]. }
  change (join_sp [] (c :: x)) with (c :: x).
  replace (budget <? count_tokens (c :: x)) with false
    by (symmetry; apply Nat.ltb_ge; exact H1).
  rewrite sentence_loop_fits; [reflexivity|exact Hmono|reflexivity|exact Hfit].
Qed.

(** ** Sanitised names *)

Lemma sanitize_filename_shape : forall s,
  let out := sanitize_filename s in
  (forall c, In c out -> is_invalid_filename_char c = false /\ c <> " "%char)
  /\ no_double_underscore out
  /\ hd_error out <> Some underscore
  /\ hd_error (rev out) <> Some underscore.
Proof.
  intros s out. subst out. rewrite sanitize_filename_unfold.
  set (L0 := filter (fun c => negb (is_invalid_filename_char c)) s).
  set (L := collapse_underscores (map space_to_underscore L0)).
  set (L1 := lstrip_by is_underscore L).
  set (R := lstrip_by is_underscore (rev L1)).
  assert (Hout : strip_by is_underscore L = rev R) by reflexivity.
  rewrite Hout. split; [|split; [|split]].
  - intros c Hc. rewrite <- Hout in Hc.
    apply in_strip_by, in_collapse_underscores, in_map_iff in Hc.
    destruct Hc as [d [Hdc Hd]]. unfold L0 in Hd. apply filter_In in Hd as [_ Hv].
    apply negb_true_iff in Hv. subst c. unfold space_to_underscore.
    destruct (Ascii.eqb d " "%char) eqn:Hsp.
    + split; [reflexivity|discriminate].
    + split; [exact Hv|]. intros E. subst d. discriminate Hsp.
  - apply no_double_underscore_rev, no_double_underscore_lstrip,
      no_double_underscore_rev, no_double_underscore_lstrip,
      collapse_underscores_no_double.
  - destruct (rev R) as [|c t] eqn:HR; [discriminate|]. simpl. intros E.
    injection E as ->.
    destruct (lstrip_by_split is_underscore (rev L1)) as [pre [Heq _]].
    fold R in Heq.
    assert (HL1 : L1 = underscore :: (t ++ rev pre)).
    { rewrite <- (rev_involutive L1), Heq, rev_app_distr, HR. reflexivity. }
    apply lstrip_by_head in HL1. discriminate HL1.
  - rewrite rev_involutive. destruct R as [|c t] eqn:HR; [discriminate|].
    simpl. intros E. injection E as ->. apply lstrip_by_head in HR.
    discriminate HR.
Qed.

Lemma filter_keep_sanitize : forall s,
  filter keep_char (sanitize_filename s)
  = filter keep_char (filter (fun c => negb (is_invalid_filename_char c)) s).
Proof.
  intros s. rewrite sanitize_filename_unfold. unfold strip_by.
  rewrite filter_rev', filter_keep_lstrip, filter_rev', rev_involutive,
    filter_keep_lstrip. unfold collapse_underscores.
  rewrite filter_keep_collapse, filter_keep_space_to_underscore. reflexivity.
Qed.

Lemma filter_all : forall (f : ascii -> bool) l,
  (forall c, In c l -> f c = true) -> filter f l = l.
Proof.
  intros f l H. induction l as [|c l IH]; simpl; [reflexivity|].
  rewrite (H c (or_introl eq_refl)), IH; [reflexivity|].
  intros x Hx. apply H. right. exact Hx.
Qed.

Lemma collapse_underscores_id : forall l b,
  no_double_underscore l -> (b = true -> hd_error l <> Some underscore) ->
  collapse_underscores_aux b l = l.
Proof.
  induction l as [|c l IH]; intros b Hnd Hb; simpl; [reflexivity|].
  assert (Hnd' : no_double_underscore l)
    by (apply (no_double_underscore_suffix [c]); exact Hnd).
  destruct (Ascii.eqb c underscore) eqn:Hc.
  - apply Ascii.eqb_eq in Hc. subst c. destruct b.
    + exfalso. apply (Hb eq_refl). reflexivity.
    + rewrite IH; auto. intros _. destruct l as [|d l]; [discriminate|].
      simpl. intros E. injection E as ->. apply (Hnd [] l). reflexivity.
  - rewrite IH; auto. discriminate.
Qed.

Lemma strip_by_underscore_id : forall l,
  hd_error l <> Some underscore -> hd_error (rev l) <> Some underscore ->
  strip_by is_underscore l = l.
Proof.
  assert (Hhd : forall l, hd_error l <> Some underscore ->
            forall c t, l = c :: t -> is_underscore c = false).
  { intros l H c t ->. unfold is_underscore. destruct (Ascii.eqb c underscore) eqn:E;
      [|reflexivity]. apply Ascii.eqb_eq in E. subst c. contradiction H. reflexivity. }
  intros l H1 H2. unfold strip_by.
  rewrite (lstrip_by_id is_underscore l (Hhd l H1)),
    (lstrip_by_id is_underscore (rev l) (Hhd (rev l) H2)).
  apply rev_involutive.
Qed.

Lemma lstrip_by_all : forall p l, forallb p l = true -> lstrip_by p l = [].
Proof.
  intros p l H. induction l as [|c l IH]; simpl in *; [reflexivity|].
  apply andb_prop in H as [Hc Hl]. rewrite Hc. apply IH, Hl.
Qed.

(** ** Titles of watch pages *)

Lemma prefixb_refl : forall p q, prefixb p (p ++ q) = true.
Proof.
  induction p as [|c p IH]; intros q; simpl; [reflexivity|].
  rewrite Ascii.eqb_refl. apply IH.
Qed.

Lemma prefixb_app_short : forall a p b,
  prefixb p (a ++ b) = true -> List.length a < List.length p ->
  prefixb (skipn (List.length a) p) b = true.
Proof.
  induction a as [|x a IH]; intros p b H Hlt; simpl in *; [exact H|].
  destruct p as [|c p]; simpl in *; [lia|].
  apply andb_prop in H as [_ H]. apply IH; [exact H|lia].
Qed.

Lemma prefixb_app_long : forall a p b,
  prefixb p (a ++ b) = true -> List.length p <= List.length a -> prefixb p a = true.
Proof.
  induction a as [|x a IH]; intros p b H Hle; simpl in *.
  - destruct p; [reflexivity|simpl in Hle; lia].
  - destruct p as [|c p]; [reflexivity|]. simpl in *.
    apply andb_prop in H as [Hc H]. rewrite Hc. apply (IH p b H). lia.
Qed.

Lemma title_search_skip : forall pre rest,
  contains pre (s_ "<title>") = false ->
  (exists r, rest = "<"%char :: r) ->
  title_search (pre ++ rest) = title_search rest.
Proof.
  induction pre as [|c pre IH]; intros rest Hpre [r Hr]; [reflexivity|].
  simpl in Hpre. apply orb_false_iff in Hpre as [Hp Hpre].
  change ((c :: pre) ++ rest) with (c :: (pre ++ rest)).
  simpl title_search at 1.
  assert (Hno : prefixb (s_ "<title>") ((c :: pre) ++ rest) = false).
  { destruct (prefixb (s_ "<title>") ((c :: pre) ++ rest)) eqn:E; [|reflexivity].
    exfalso.
    destruct (Nat.lt_ge_cases (List.length (c :: pre)) 7) as [Hlt|Hge].
    - apply prefixb_app_short in E; [|exact Hlt]. subst rest.
      remember (List.length (c :: pre)) as k eqn:Hk. simpl in Hk.
      do 7 (destruct k as [|k]; [try discriminate; vm_compute in E; discriminate|]).
      lia.
    - apply prefixb_app_long in E; [|exact Hge]. simpl in E. congruence. }
  unfold title_match_at. change (c :: pre ++ rest) with ((c :: pre) ++ rest).
  rewrite Hno. apply IH; [exact Hpre|eauto].
Qed.

Lemma span_not_lt_app : forall x rest,
  forallb (fun c => negb (Ascii.eqb c "<"%char)) x = true ->
  span_not_lt (x ++ "<"%char :: rest) = (x, "<"%char :: rest).
Proof.
  induction x as [|c x IH]; intros rest H; [reflexivity|].
  simpl in *. apply andb_prop in H as [Hc H]. apply negb_true_iff in Hc.
  rewrite Hc, IH by exact H. reflexivity.
Qed.

Lemma span_not_lt_fst : forall s c, In c (fst (span_not_lt s)) -> c <> "<"%char.
Proof.
  induction s as [|d s IH]; intros c H; simpl in H; [contradiction|].
  destruct (Ascii.eqb d "<"%char) eqn:Hd; [contradiction|].
  destruct (span_not_lt s) as [x y] eqn:Hs. simpl in H. destruct H as [<-|H].
  - intros E. subst d. discriminate Hd.
  - apply IH. exact H.
Qed.

Lemma title_match_at_page : forall x post,
  x <> [] -> forallb (fun c => negb (Ascii.eqb c "<"%char)) x = true ->
  title_match_at (s_ "<title>" ++ x ++ s_ "</title>" ++ post) = Some x.
Proof.
  intros x post Hne Hx. unfold title_match_at. rewrite prefixb_refl.
  replace (skipn 7 (s_ "<title>" ++ x ++ s_ "</title>" ++ post))
    with (x ++ s_ "</title>" ++ post) by reflexivity.
  change (s_ "</title>" ++ post) with ("<"%char :: (s_ "/title>" ++ post)).
  rewrite span_not_lt_app by exact Hx.
  change ("<"%char :: (s_ "/title>" ++ post)) with (s_ "</title>" ++ post).
  rewrite prefixb_refl. destruct x; [contradiction|reflexivity].
Qed.

Lemma title_search_cons : forall c s,
  title_search (c :: s)
  = match title_match_at (c :: s) with Some x => Some x | None => title_search s end.
Proof. reflexivity. Qed.

Lemma title_search_page : forall pre x post,
  contains pre (s_ "<title>") = false ->
  x <> [] -> forallb (fun c => negb (Ascii.eqb c "<"%char)) x = true ->
  title_search (pre ++ s_ "<title>" ++ x ++ s_ "</title>" ++ post) = Some x.
Proof.
  intros pre x post Hpre Hne Hx. rewrite title_search_skip; [|exact Hpre|eexists; reflexivity].
  pose proof (title_match_at_page x post Hne Hx) as Hm.
  remember (s_ "<title>" ++ x ++ s_ "</title>" ++ post) as page eqn:Hpage.
  destruct page as [|c p]; [discriminate Hpage|].
  rewrite title_search_cons, Hm. reflexivity.
Qed.

Lemma remove_youtube_suffix_app : forall x,
  remove_youtube_suffix (x ++ youtube_suffix) = x.
Proof.
  intros x. unfold remove_youtube_suffix. rewrite rev_app_distr, prefixb_refl.
  replace (skipn 10 (rev youtube_suffix ++ rev x)) with (rev x) by reflexivity.
  apply rev_involutive.
Qed.

Lemma remove_youtube_suffix_app_nl : forall x,
  remove_youtube_suffix (x ++ youtube_suffix ++ nl) = x ++ nl.
Proof.
  intros x. unfold remove_youtube_suffix.
  rewrite app_assoc, rev_app_distr, rev_app_distr.
  replace (prefixb (rev youtube_suffix) (rev nl ++ rev youtube_suffix ++ rev x))
    with false by reflexivity.
  change (rev nl ++ rev youtube_suffix ++ rev x)
    with ("010"%char :: (rev youtube_suffix ++ rev x)).
  cbv iota. rewrite Ascii.eqb_refl, prefixb_refl. cbv iota.
  replace (skipn 10 (rev youtube_suffix ++ rev x)) with (rev x) by reflexivity.
  rewrite rev_involutive. reflexivity.
Qed.

Lemma in_skipn' : forall (n : nat) (l : str) c, In c (skipn n l) -> In c l.
Proof.
  intros n l c H. rewrite <- (firstn_skipn n l). apply in_or_app. right. exact H.
Qed.

Lemma in_remove_youtube_suffix : forall t c,
  In c (remove_youtube_suffix t) -> In c t.
Proof.
  intros t c H. unfold remove_youtube_suffix in H.
  destruct (prefixb (rev youtube_suffix) (rev t)).
  - apply in_rev, in_skipn', in_rev in H. exact H.
  - destruct (rev t) as [|d r] eqn:Ht; [exact H|].
    destruct (Ascii.eqb d "010"%char && prefixb (rev youtube_suffix) r); [|exact H].
    apply in_rev. rewrite Ht. apply in_app_or in H as [H|[H|[]]].
    + right. apply in_rev, in_skipn' in H. exact H.
    + left. exact H.
Qed.

Lemma title_search_no_lt : forall s x c,
  title_search s = Some x -> In c x -> c <> "<"%char.
Proof.
  induction s as [|d s IH]; intros x c H Hc; simpl in H; [discriminate|].
  destruct (title_match_at (d :: s)) as [y|] eqn:Hm.
  - injection H as <-. unfold title_match_at in Hm.
    destruct (prefixb (s_ "<title>") (d :: s)); [|discriminate].
    destruct (span_not_lt (skipn 7 (d :: s))) as [y' r] eqn:Hsp.
    destruct (nonempty y' && prefixb (s_ "</title>") r); [|discriminate].
    injection Hm as <-. apply (span_not_lt_fst (skipn 7 (d :: s))). rewrite Hsp. exact Hc.
  - eapply IH; eassumption.
Qed.

(** ** Playlist ids *)

Lemma str_eqb_eq : forall a b, str_eqb a b = true <-> a = b.
Proof.
  intros a b. unfold str_eqb. destruct (list_eq_dec ascii_dec a b); split; congruence.
Qed.

Lemma existsb_str_eqb : forall v l, existsb (str_eqb v) l = true <-> In v l.
Proof.
  intros v l. rewrite existsb_exists. split.
  - intros [x [Hx E]]. apply str_eqb_eq in E. subst. exact Hx.
  - intros H. exists v. split; [exact H|]. apply str_eqb_eq. reflexivity.
Qed.

Lemma NoDup_snoc : forall (l : list str) v, NoDup l -> ~ In v l -> NoDup (l ++ [v]).
Proof.
  intros l v Hnd. induction Hnd as [|x l Hx Hnd IH]; intros Hv; simpl.
  - constructor; [intros []|constructor].
  - constructor.
    + rewrite in_app_iff. simpl. intros [H|[H|[]]]; [contradiction|].
      subst. apply Hv. left. reflexivity.
    + apply IH. intros H. apply Hv. right. exact H.
Qed.

Lemma collect_unique_spec : forall vids seen ordered,
  (forall v, In v seen <-> In v ordered) -> NoDup ordered ->
  NoDup (collect_unique seen ordered vids)
  /\ (forall v, In v (collect_unique seen ordered vids) <-> In v ordered \/ In v vids).
Proof.
  induction vids as [|vid vids IH]; intros seen ordered Hs Hnd; simpl.
  - split; [exact Hnd|]. intros v. tauto.
  - destruct (existsb (str_eqb vid) seen) eqn:He.
    + apply existsb_str_eqb, Hs in He.
      destruct (IH seen ordered Hs Hnd) as [H1 H2]. split; [exact H1|].
      intros v. rewrite H2. split; [tauto|]. intros [H|[<-|H]]; auto.
    + assert (Hn : ~ In vid ordered).
      { intros H. apply Hs, existsb_str_eqb in H. congruence. }
      destruct (IH (vid :: seen) (ordered ++ [vid])) as [H1 H2].
      * intros v. simpl. rewrite Hs, in_app_iff. simpl. tauto.
      * apply NoDup_snoc; assumption.
      * split; [exact H1|]. intros v. rewrite H2, in_app_iff. simpl. tauto.
Qed.

Lemma playlist_ids_spec : forall html,
  NoDup (playlist_ids_from_html html)
  /\ (forall v, In v (playlist_ids_from_html html) <-> In v (video_id_matches html)).
Proof.
  intros html. unfold playlist_ids_from_html.
  destruct (collect_unique_spec (video_id_matches html) [] [])
    as [H1 H2]; [tauto|constructor|].
  split; [exact H1|]. intros v. rewrite H2. simpl. tauto.
Qed.

Lemma prefixb_firstn : forall n (l : str), prefixb (firstn n l) l = true.
Proof.
  induction n as [|n IH]; intros [|c l]; simpl; try reflexivity.
  rewrite Ascii.eqb_refl. apply IH.
Qed.

Lemma prefixb_app_same : forall p q r, prefixb (p ++ q) (p ++ r) = prefixb q r.
Proof.
  induction p as [|c p IH]; intros q r; simpl; [reflexivity|].
  rewrite Ascii.eqb_refl. apply IH.
Qed.

Lemma prefixb_split : forall p s, prefixb p s = true -> s = p ++ skipn (List.length p) s.
Proof.
  induction p as [|c p IH]; intros s H; simpl; [reflexivity|].
  destruct s as [|d s]; [discriminate|]. simpl in H.
  apply andb_prop in H as [Hc H]. apply Ascii.eqb_eq in Hc. subst d.
  f_equal. apply IH, H.
Qed.

Lemma contains_prefix : forall s p, prefixb p s = true -> contains s p = true.
Proof. intros [|c s] p H; simpl; rewrite H; reflexivity. Qed.

Lemma contains_skipn : forall n s p, contains (skipn n s) p = true -> contains s p = true.
Proof.
  induction n as [|n IH]; intros s p H; [exact H|].
  destruct s as [|c s]; [exact H|]. simpl in H. simpl.
  rewrite (IH s p H). apply orb_true_r.
Qed.

Lemma watch_match_at_spec : forall s vid after,
  watch_match_at s = Some (vid, after) ->
  List.length vid = 11 /\ forallb is_video_id_char vid = true
  /\ prefixb (s_ "watch?v=" ++ vid) s = true /\ after = skipn 19 s.
Proof.
  intros s vid after H. unfold watch_match_at in H.
  destruct (prefixb (s_ "watch?v=") s) eqn:Hp; [|discriminate].
  destruct ((List.length (firstn 11 (skipn 8 s)) =? 11)
            && forallb is_video_id_char (firstn 11 (skipn 8 s))) eqn:Hv; [|discriminate].
  assert (Hvid : vid = firstn 11 (skipn 8 s)) by congruence.
  assert (Haft : after = skipn 11 (skipn 8 s)) by congruence.
  subst vid after. apply andb_prop in Hv as [Hl Hf].
  apply Nat.eqb_eq in Hl. split; [exact Hl|]. split; [exact Hf|]. split.
  - pose proof (prefixb_split _ _ Hp) as Hsplit.
    change (List.length (s_ "watch?v=")) with 8 in Hsplit.
    rewrite Hsplit at 2. rewrite prefixb_app_same. apply prefixb_firstn.
  - rewrite skipn_skipn. reflexivity.
Qed.

Lemma watch_finditer_sound : forall fuel s v,
  In v (watch_finditer fuel s) ->
  List.length v = 11 /\ forallb is_video_id_char v = true
  /\ contains s (s_ "watch?v=" ++ v) = true.
Proof.
  induction fuel as [|fuel IH]; intros s v H; [contradiction|].
  destruct s as [|c rest]; [contradiction|].
  change (watch_finditer (S fuel) (c :: rest)) with
    (match watch_match_at (c :: rest) with
     | Some (vid, after) => vid :: watch_finditer fuel after
     | None => watch_finditer fuel rest
     end) in H.
  destruct (watch_match_at (c :: rest)) as [[vid after]|] eqn:Hm.
  - apply watch_match_at_spec in Hm as [Hl [Hf [Hp Ha]]]. destruct H as [<-|H].
    + split; [exact Hl|]. split; [exact Hf|]. apply contains_prefix, Hp.
    + destruct (IH after v H) as [H1 [H2 H3]]. split; [exact H1|]. split; [exact H2|].
      apply (contains_skipn 19). rewrite <- Ha. exact H3.
  - destruct (IH rest v H) as [H1 [H2 H3]]. split; [exact H1|]. split; [exact H2|].
    apply (contains_skipn 1). exact H3.
Qed.

(** ** [process_playlist] *)

Lemma playlist_loop_flat_map : forall pv vids acc,
  playlist_loop pv acc vids
  = acc ++ flat_map (fun v => match pv (watch_url v) with
                              | Ok p => [p] | Err _ => [] end) vids.
Proof.
  induction vids as [|v vids IH]; intros acc; simpl; [symmetry; apply app_nil_r|].
  destruct (pv (watch_url v)); rewrite IH; [rewrite <- app_assoc|]; reflexivity.
Qed.

(** ** Properties of the further functions *)

(** X1: [_format_transcript] returns the words of the caption texts, in
    order, joined by single spaces: no newline, no whitespace run, nothing
    at either end. *)
Theorem format_transcript_collapsed : forall transcript_data,
  format_transcript transcript_data
  = join_space (List.concat (map words transcript_data)).
Proof. exact format_transcript_canonical. Qed.

(** X2: every chunk of [split_text_into_chunks] is its own [strip()]: no
    chunk starts or ends with whitespace, whatever the estimator and the
    budget. *)
Theorem split_text_into_chunks_stripped : forall count_tokens budget text,
  Forall (fun c => strip c = c) (split_text_into_chunks count_tokens budget text).
Proof.
  intros count_tokens budget text.
  apply (split_text_into_chunks_shape count_tokens budget
           (fun c => strip c = c) (fun _ => True)); auto.
  - intros s _. apply strip_trimmed, trimmed_strip.
  - intros w _ Hw. apply strip_trimmed, word_trimmed, Hw.
  - apply Forall_forall. auto.
Qed.

(** X3: when the text holds a non-whitespace character, every chunk holds
    one, so there are at most as many chunks (and summarisation calls) as
    words. *)
Theorem split_text_into_chunks_nonblank : forall count_tokens budget text,
  words text <> [] ->
  Forall (fun c => words c <> []) (split_text_into_chunks count_tokens budget text)
  /\ List.length (split_text_into_chunks count_tokens budget text)
     <= List.length (words text).
Proof.
  intros count_tokens budget text Htext.
  assert (HF : Forall (fun c => words c <> [])
                 (split_text_into_chunks count_tokens budget text)).
  { apply (split_text_into_chunks_shape count_tokens budget
             (fun c => words c <> []) (fun s => forallb is_space s = false)).
    - apply word_nonblank.
    - apply blank_join_sp.
    - apply blank_join_sp_l.
    - intros s Hs. rewrite words_strip. intros E. apply words_nil_iff in E. congruence.
    - intros w Hne Hw E. apply words_nil_iff in E. rewrite (word_nonblank w Hne Hw) in E.
      discriminate.
    - apply split_sentences_pieces, Htext. }
  split; [exact HF|].
  rewrite <- (split_text_into_chunks_words count_tokens budget text).
  apply length_le_concat_words, HF.
Qed.

(** X4: [process_video] passes the text of [_format_transcript] to the
    chunker; for an estimator that never decreases when text is appended,
    that text is a single chunk, unchanged, as soon as it is non-empty and
    within the budget. *)
Theorem split_text_into_chunks_formatted_fits :
  forall (count_tokens : str -> nat) budget transcript_data,
  (forall a b, count_tokens a <= count_tokens (a ++ b)) ->
  format_transcript transcript_data <> [] ->
  count_tokens (format_transcript transcript_data) <= budget ->
  split_text_into_chunks count_tokens budget (format_transcript transcript_data)
  = [format_transcript transcript_data].
Proof.
  intros count_tokens budget l Hmono Hne Hfit.
  destruct (format_transcript_shape l) as [Hss Htr].
  rewrite split_text_into_chunks_single.
  - rewrite (join_space_split_sentences _ Hss), strip_trimmed; auto.
  - exact Hmono.
  - exact Hne.
  - rewrite (join_space_split_sentences _ Hss). exact Hfit.
Qed.

(** X5: caption texts without any non-whitespace character give no chunk,
    no summarisation call, and a document that is only the header with
    [Total sections: 0]. *)
Theorem blank_transcript_document :
  forall count_tokens budget provider chat_completion current_date video_title
         transcript_data,
  List.concat (map words transcript_data) = [] ->
  let chunks := split_text_into_chunks count_tokens budget
                  (format_transcript transcript_data) in
  chunks = []
  /\ match process_video_summaries provider chat_completion chunks with
     | Ok summaries => merge_summaries current_date summaries video_title
                       = doc_header current_date video_title 0
     | Err _ => False
     end.
Proof.
  intros count_tokens budget provider call d t l Hl chunks.
  assert (Hc : chunks = []).
  { unfold chunks. rewrite format_transcript_canonical, Hl.
    apply split_text_into_chunks_nil. }
  split; [exact Hc|]. rewrite Hc. simpl.
  unfold merge_summaries, doc_header. str_norm.
Qed.

(** X6: [sanitize_filename] is idempotent. *)
Theorem sanitize_filename_idempotent : forall s,
  sanitize_filename (sanitize_filename s) = sanitize_filename s.
Proof.
  intros s. destruct (sanitize_filename_shape s) as [Hin [Hnd [Hh1 Hh2]]].
  set (o := sanitize_filename s) in *. rewrite (sanitize_filename_unfold o).
  rewrite filter_all by (intros c Hc; rewrite (proj1 (Hin c Hc)); reflexivity).
  rewrite (map_ext_in space_to_underscore (fun c => c) o), map_id.
  - unfold collapse_underscores. rewrite collapse_underscores_id by (try assumption; discriminate).
    apply strip_by_underscore_id; assumption.
  - intros c Hc. unfold space_to_underscore.
    destruct (Ascii.eqb c " "%char) eqn:E; [|reflexivity].
    apply Ascii.eqb_eq in E. destruct (proj2 (Hin c Hc) E).
Qed.

(** X7: [save_summary] writes [output_dir/NAME.md] where [NAME] holds no
    slash and no backslash, so the file is directly inside the output
    directory; [NAME] is empty (the file [.md]) exactly when the title has
    no character other than the removed ones, spaces and underscores. *)
Theorem save_summary_path_in_output_dir : forall output_dir video_title,
  exists name,
    save_summary_path output_dir video_title = output_dir ++ "/"%char :: name ++ s_ ".md"
    /\ ~ In "/"%char name /\ ~ In "\"%char name
    /\ (name = [] <->
        forallb (fun c => is_invalid_filename_char c || Ascii.eqb c " "%char
                          || Ascii.eqb c underscore) video_title = true).
Proof.
  intros dir title. exists (sanitize_filename title).
  destruct (sanitize_filename_shape title) as [Hin _].
  split; [reflexivity|]. split; [|split].
  - intros H. destruct (Hin _ H) as [E _]. discriminate E.
  - intros H. destruct (Hin _ H) as [E _]. discriminate E.
  - split.
    + intros E. pose proof (filter_keep_sanitize title) as F. rewrite E in F.
      simpl in F. apply forallb_forall. intros c Hc.
      destruct (is_invalid_filename_char c) eqn:Hi; [reflexivity|]. simpl.
      destruct (keep_char c) eqn:Hk.
      * exfalso. assert (Hf : In c (filter keep_char
                          (filter (fun c => negb (is_invalid_filename_char c)) title))).
        { apply filter_In. split; [|exact Hk]. apply filter_In. rewrite Hi. auto. }
        rewrite <- F in Hf. exact Hf.
      * unfold keep_char in Hk. apply negb_false_iff in Hk. exact Hk.
    + intros H. rewrite sanitize_filename_unfold.
      set (L := map space_to_underscore
                  (filter (fun c => negb (is_invalid_filename_char c)) title)).
      assert (HL : forallb is_underscore L = true).
      { apply forallb_forall. intros c Hc. unfold L in Hc.
        apply in_map_iff in Hc as [d [<- Hd]]. apply filter_In in Hd as [Hd Hv].
        rewrite forallb_forall in H. specialize (H d Hd).
        apply negb_true_iff in Hv. rewrite Hv in H. simpl in H.
        unfold space_to_underscore. destruct (Ascii.eqb d " "%char) eqn:Hs; [reflexivity|].
        simpl in H. exact H. }
      assert (HC : forallb is_underscore (collapse_underscores L) = true).
      { apply forallb_forall. intros c Hc. apply in_collapse_underscores in Hc.
        rewrite forallb_forall in HL. apply HL, Hc. }
      unfold strip_by. rewrite (lstrip_by_all _ _ HC). reflexivity.
Qed.

(** X8: for a page whose first [<title>] element is [<title>T - YouTube</title>]
    with [T] free of [<], the title is [T]. *)
Theorem get_video_title_from_html_page : forall pre title post,
  contains pre (s_ "<title>") = false ->
  forallb (fun c => negb (Ascii.eqb c "<"%char)) title = true ->
  get_video_title_from_html
    (Ok (pre ++ s_ "<title>" ++ (title ++ youtube_suffix) ++ s_ "</title>" ++ post))
  = title.
Proof.
  intros pre title post Hpre Ht. unfold get_video_title_from_html.
  rewrite title_search_page; [apply remove_youtube_suffix_app|exact Hpre| |].
  - destruct title; discriminate.
  - rewrite forallb_app, Ht. reflexivity.
Qed.

(** X9: whatever the page, or a failed request, the title never contains
    [<]. *)
Theorem get_video_title_from_html_no_markup : forall response,
  ~ In "<"%char (get_video_title_from_html response).
Proof.
  assert (Hdef : ~ In "<"%char default_video_title).
  { intros H. vm_compute in H. repeat (destruct H as [H|H]; [discriminate H|]). exact H. }
  intros [text|e]; [|exact Hdef]. unfold get_video_title_from_html.
  destruct (title_search text) as [t|] eqn:E; [|exact Hdef].
  intros H. apply in_remove_youtube_suffix in H.
  exact (title_search_no_lt text t "<"%char E H eq_refl).
Qed.

(** X10: the suffix [ - YouTube] is removed at the end of the title and
    also just before a final newline, which is kept. *)
Theorem remove_youtube_suffix_at_end : forall x,
  remove_youtube_suffix (x ++ youtube_suffix) = x
  /\ remove_youtube_suffix (x ++ youtube_suffix ++ nl) = x ++ nl.
Proof.
  intros x. split; [apply remove_youtube_suffix_app|apply remove_youtube_suffix_app_nl].
Qed.

(** X11: a page whose first title element is [<title> - YouTube</title>]
    gives the empty title: the document's heading falls back to
    [YouTube Video Summary] but the file is [output_dir/.md]. *)
Theorem empty_title_page : forall pre post output_dir current_date summaries,
  contains pre (s_ "<title>") = false ->
  let title := get_video_title_from_html
                 (Ok (pre ++ s_ "<title> - YouTube</title>" ++ post)) in
  title = []
  /\ save_summary_path output_dir title = output_dir ++ s_ "/.md"
  /\ merge_summaries current_date summaries title
     = merge_summaries current_date summaries default_video_title.
Proof.
  intros pre post dir d ss Hpre title.
  assert (Ht : title = []).
  { unfold title.
    change (s_ "<title> - YouTube</title>" ++ post)
      with (s_ "<title>" ++ ([] ++ youtube_suffix) ++ s_ "</title>" ++ post).
    unfold get_video_title_from_html.
    rewrite title_search_page; [apply (remove_youtube_suffix_app [])|exact Hpre
                               |discriminate|reflexivity]. }
  rewrite Ht. split; [reflexivity|]. split; reflexivity.
Qed.

(** X12: the ids returned for a playlist page are pairwise distinct and
    are exactly the ids of the regex matches. *)
Theorem playlist_ids_unique : forall html,
  NoDup (playlist_ids_from_html html)
  /\ (forall v, In v (playlist_ids_from_html html) <-> In v (video_id_matches html)).
Proof. exact playlist_ids_spec. Qed.

(** X13: every returned id has 11 characters of [[A-Za-z0-9_-]] and the
    page contains [watch?v=] followed by it. *)
Theorem playlist_ids_well_formed : forall html v,
  In v (playlist_ids_from_html html) ->
  List.length v = 11 /\ forallb is_video_id_char v = true
  /\ contains html (s_ "watch?v=" ++ v) = true.
Proof.
  intros html v H. apply playlist_ids_spec in H. unfold video_id_matches in H.
  exact (watch_finditer_sound _ html v H).
Qed.

(** X14: [process_playlist] never fails because of a video: the output
    files are those of the videos that were processed, in playlist order,
    at most one per id. *)
Theorem process_playlist_skips_failures : forall process_video vids,
  let files := flat_map (fun v => match process_video (watch_url v) with
                                  | Ok p => [p] | Err _ => [] end) vids in
  process_playlist process_video (Ok vids) = PlaylistOk files
  /\ List.length files <= List.length vids.
Proof.
  intros pv vids files. split.
  - unfold process_playlist. rewrite playlist_loop_flat_map. reflexivity.
  - unfold files. clear files. induction vids as [|v vids IH]; simpl; [lia|].
    destruct (pv (watch_url v)); simpl; lia.
Qed.

(** X15: a [ProviderConfig] that is built holds a non-empty API key (the
    argument when it is non-empty), a configured provider, and that
    provider's base URL, headers and body. *)
Theorem provider_config_init_ok : forall cfg getenv provider model api_key c,
  provider_config_init cfg getenv provider model api_key = ConfigOk c ->
  nonempty (pc_api_key c) = true
  /\ get_provider_setting cfg (pc_provider c) = Some (pc_provider_settings c)
  /\ pc_base_url c = base_url (pc_provider_settings c)
  /\ pc_extra_headers c = extra_headers (pc_provider_settings c)
  /\ pc_extra_body c = extra_body (pc_provider_settings c)
  /\ (forall k, api_key = Some k -> nonempty k = true -> pc_api_key c = k).
Proof.
  intros cfg getenv p m k c H. unfold provider_config_init in H. cbv zeta in H.
  destruct (get_provider_setting cfg _) as [ps|] eqn:Hps; [|discriminate].
  destruct (py_or k (getenv (api_key_env ps))) as [key|] eqn:Hk; [|discriminate].
  destruct (nonempty key) eqn:Hne; [|discriminate].
  injection H as <-. simpl. split; [exact Hne|]. split; [exact Hps|].
  split; [reflexivity|]. split; [reflexivity|]. split; [reflexivity|].
  intros k' -> Hk'. unfold py_or in Hk. rewrite Hk' in Hk. congruence.
Qed.

(** X16: with an explicit non-empty provider name, an unknown provider
    raises [ConfigurationError] ([Provider X not configured]), and a known
    one with no non-empty key from the argument or its environment variable
    raises the [API key required] error. *)
Theorem provider_config_init_errors : forall cfg getenv prov model api_key,
  nonempty prov = true ->
  (get_provider_setting cfg prov = None ->
   provider_config_init cfg getenv (Some prov) model api_key
   = ConfigurationError (s_ "Provider " ++ prov ++ s_ " not configured"))
  /\ (forall ps, get_provider_setting cfg prov = Some ps ->
      (forall k, api_key = Some k -> k = []) ->
      (forall k, getenv (api_key_env ps) = Some k -> k = []) ->
      provider_config_init cfg getenv (Some prov) model api_key
      = ConfigurationError (api_key_required_msg prov (api_key_env ps))).
Proof.
  intros cfg getenv prov m k Hne.
  assert (Hp : py_or_str (py_or (Some prov) (getenv (s_ "AI_PROVIDER")))
                 (default_provider cfg) = prov).
  { unfold py_or, py_or_str. cbv beta iota. rewrite Hne. cbv beta iota.
    rewrite Hne. reflexivity. }
  unfold provider_config_init. cbv zeta. rewrite Hp. split.
  - intros Hn. rewrite Hn. reflexivity.
  - intros ps Hps Hk Henv. rewrite Hps.
    assert (Hkey : forall v, py_or k (getenv (api_key_env ps)) = Some v -> v = []).
    { intros v E. destruct k as [k|]; simpl in E.
      - rewrite (Hk k eq_refl) in E. simpl in E. apply Henv, E.
      - apply Henv, E. }
    destruct (py_or k (getenv (api_key_env ps))) as [v|]; [|reflexivity].
    rewrite (Hkey v eq_refl). reflexivity.
Qed.

(** ** Witnesses *)

Lemma split_text_into_chunks_nonblank_witness :
  Forall (fun c => words c <> [])
    (split_text_into_chunks (mock_count_tokens 1) 1 (s_ "a. b c d"))
  /\ List.length (split_text_into_chunks (mock_count_tokens 1) 1 (s_ "a. b c d"))
     <= List.length (words (s_ "a. b c d")).
Proof.
  apply (split_text_into_chunks_nonblank (mock_count_tokens 1) 1 (s_ "a. b c d")).
  vm_compute. discriminate.
Defined.

Lemma split_text_into_chunks_formatted_fits_witness :
  split_text_into_chunks (@List.length ascii) 100
    (format_transcript [s_ "Hello  world."; s_ "  second   line "])
  = [format_transcript [s_ "Hello  world."; s_ "  second   line "]].
Proof.
  apply (split_text_into_chunks_formatted_fits (@List.length ascii) 100
           [s_ "Hello  world."; s_ "  second   line "]).
  - intros a b. rewrite length_app. lia.
  - vm_compute. discriminate.
  - vm_compute. lia.
Defined.

Lemma blank_transcript_document_witness :
  let chunks := split_text_into_chunks (mock_count_tokens 1) 10
                  (format_transcript [s_ "  "; []]) in
  chunks = []
  /\ match process_video_summaries (s_ "openai") (fun _ _ _ => Ok []) chunks with
     | Ok summaries => merge_summaries (s_ "D") summaries (s_ "T")
                       = doc_header (s_ "D") (s_ "T") 0
     | Err _ => False
     end.
Proof.
  apply (blank_transcript_document (mock_count_tokens 1) 10 (s_ "openai")
           (fun _ _ _ => Ok []) (s_ "D") (s_ "T") [s_ "  "; []]).
  vm_compute. reflexivity.
Defined.

Lemma get_video_title_from_html_page_witness :
  get_video_title_from_html
    (Ok (s_ "<html><head>" ++ s_ "<title>" ++ (s_ "Rocq intro" ++ youtube_suffix)
         ++ s_ "</title>" ++ s_ "</head>"))
  = s_ "Rocq intro".
Proof.
  apply (get_video_title_from_html_page (s_ "<html><head>") (s_ "Rocq intro")
           (s_ "</head>")).
  - vm_compute. reflexivity.
  - vm_compute. reflexivity.
Defined.

Lemma empty_title_page_witness :
  let title := get_video_title_from_html
                 (Ok (s_ "<head>" ++ s_ "<title> - YouTube</title>" ++ s_ "</head>")) in
  title = []
  /\ save_summary_path (s_ "./output") title = s_ "./output" ++ s_ "/.md"
  /\ merge_summaries (s_ "D") [s_ "x"] title
     = merge_summaries (s_ "D") [s_ "x"] default_video_title.
Proof.
  apply (empty_title_page (s_ "<head>") (s_ "</head>") (s_ "./output") (s_ "D") [s_ "x"]).
  vm_compute. reflexivity.
Defined.

Lemma playlist_ids_well_formed_witness :
  List.length (s_ "abcdefghijk") = 11
  /\ forallb is_video_id_char (s_ "abcdefghijk") = true
  /\ contains (s_ "a watch?v=abcdefghijk") (s_ "watch?v=" ++ s_ "abcdefghijk") = true.
Proof.
  apply (playlist_ids_well_formed (s_ "a watch?v=abcdefghijk") (s_ "abcdefghijk")).
  vm_compute. left. reflexivity.
Defined.

Lemma provider_config_init_ok_witness :
  exists c,
    provider_config_init default_settings
      (fun v => if str_eqb v (s_ "OPENROUTER_API_KEY") then Some (s_ "sk") else None)
      None None None = ConfigOk c
    /\ nonempty (pc_api_key c) = true
    /\ get_provider_setting default_settings (pc_provider c) = Some (pc_provider_settings c)
    /\ pc_base_url c = base_url (pc_provider_settings c)
    /\ pc_extra_headers c = extra_headers (pc_provider_settings c)
    /\ pc_extra_body c = extra_body (pc_provider_settings c)
    /\ (forall k, @None str = Some k -> nonempty k = true -> pc_api_key c = k).
Proof.
  eexists. split; [reflexivity|].
  apply (provider_config_init_ok default_settings
           (fun v => if str_eqb v (s_ "OPENROUTER_API_KEY") then Some (s_ "sk") else None)
           None None None).
  reflexivity.
Defined.

Lemma provider_config_init_errors_witness :
  provider_config_init default_settings (fun _ => None) (Some (s_ "openai")) None None
  = ConfigurationError (api_key_required_msg (s_ "openai") (s_ "OPENAI_API_KEY")).
Proof.
  destruct (provider_config_init_errors default_settings (fun _ => None) (s_ "openai")
              None None) as [_ H2].
  - reflexivity.
  - apply (H2 (mkProviderSettings (s_ "gpt-3.5-turbo") None (s_ "OPENAI_API_KEY") [] [])).
    + reflexivity.
    + intros k E. discriminate E.
    + intros k E. discriminate E.
Defined.
